(** * esl: FreeSWITCH event-socket client -- wire codec, events, responses

    A shallow embedding of the protocol core of the Go package [esl]
    (command.go, event.go, response.go, conn.go, events.go, tools.go) and the
    properties of its specification that were checked against it.

    Conventions of the embedding.
    - A Go [string] and a Go [[]byte] are both finite byte sequences; both are
      [string] here (a sequence of 8-bit [ascii] characters), and the
      conversions [string(b)] and [[]byte(s)] are the identity.
    - [int] is the 64-bit [int] of the usual targets; numbers are in [Z].
    - A Go [map[string]string] is a [gmap string string].  The nil map and the
      empty map are not told apart (they read alike).  [for k := range m]
      visits every key once in an order the language leaves open: functions
      that range over a map take that order as an argument.
    - A function that writes to an [io.Writer] is the byte sequence it hands
      to the writer. *)

From Stdlib Require Import ZArith Ascii String List Lia.
From stdpp Require Import base gmap strings list sorting.

Local Open Scope Z_scope.

Abbreviation bytes := string (only parsing).

(** ** Bytes and slices *)

Definition LF : ascii := "010"%char.
Definition CR : ascii := "013"%char.
Definition TAB : ascii := "009"%char.

(** [len(s)] *)
Definition len (s : bytes) : Z := Z.of_nat (String.length s).

Fixpoint str_take (n : nat) (s : bytes) : bytes :=
  match n, s with
  | S n, String a s => String a (str_take n s)
  | _, _ => ""
  end.

Fixpoint str_drop (n : nat) (s : bytes) : bytes :=
  match n, s with
  | S n, String _ s => str_drop n s
  | _, _ => s
  end.

(** [s[:i]] and [s[i:]] for an index within range *)
Definition slice_to (s : bytes) (i : Z) : bytes := str_take (Z.to_nat i) s.
Definition slice_from (s : bytes) (i : Z) : bytes := str_drop (Z.to_nat i) s.

Fixpoint str_repeat (c : ascii) (n : nat) : bytes :=
  match n with
  | O => ""
  | S n => String c (str_repeat c n)
  end.

(** A [bufio.Writer] that is only appended to. *)
Definition WriteString (buf s : bytes) : bytes := buf +:+ s.
Definition WriteByte (buf : bytes) (c : ascii) : bytes := buf +:+ String c "".

(** ** The functions of Go's standard library that the package calls *)

Module gobytes.

(** [bytes.IndexByte]: index of the first [c] in [s], or -1 *)
Fixpoint IndexByte (s : bytes) (c : ascii) : Z :=
  match s with
  | "" => -1
  | String a s' =>
      if Ascii.eqb a c then 0
      else let i := IndexByte s' c in if i <? 0 then -1 else i + 1
  end.

(** [bytes.HasPrefix], [strings.HasPrefix] *)
Definition HasPrefix (s p : bytes) : bool := String.prefix p s.

End gobytes.

Module gostrings.

(** [strings.TrimPrefix] *)
Definition TrimPrefix (s p : string) : string :=
  if gobytes.HasPrefix s p then str_drop (String.length p) s else s.

(** [strings.Join] *)
Fixpoint Join (elems : list string) (sep : string) : string :=
  match elems with
  | [] => ""
  | [x] => x
  | x :: rest => x +:+ sep +:+ Join rest sep
  end.

Definition is_upper (c : ascii) : bool :=
  let n := N_of_ascii c in (65 <=? n)%N && (n <=? 90)%N.

(** the ASCII branch of [strings.EqualFold]: equal bytes, or an upper-case
    letter and its lower-case form *)
Definition fold_eq_ascii (sr tr : ascii) : bool :=
  if Ascii.eqb tr sr then true
  else
    let a := N.min (N_of_ascii sr) (N_of_ascii tr) in
    let b := N.max (N_of_ascii sr) (N_of_ascii tr) in
    (65 <=? a)%N && (a <=? 90)%N && (b =? a + 32)%N.

Definition is_S (c : ascii) : bool :=
  Ascii.eqb c "S" || Ascii.eqb c "s".
Definition is_K (c : ascii) : bool :=
  Ascii.eqb c "K" || Ascii.eqb c "k".

(** [strings.EqualFold s t] for a [t] of ASCII bytes, which is how the
    package calls it ([t] is "all", "CUSTOM" or "Content-Length").  A byte
    of [s] below 0x80 is compared by [fold_eq_ascii].  Of the runes above
    0x7f only two fold to an ASCII letter under simple case folding:
    U+017F (long s, bytes C5 BF) folds to [s] and U+212A (Kelvin sign,
    bytes E2 84 AA) folds to [k]; any other rune, and the error rune of an
    invalid sequence, equals no ASCII rune. *)
Fixpoint EqualFold (s t : string) : bool :=
  match s, t with
  | "", "" => true
  | String a s', String b t' =>
      if (N_of_ascii a <? 128)%N then fold_eq_ascii a b && EqualFold s' t'
      else
        match s' with
        | String a1 s'' =>
            if Ascii.eqb a "197" && Ascii.eqb a1 "191"
            then is_S b && EqualFold s'' t'
            else
              match s'' with
              | String a2 s''' =>
                  if Ascii.eqb a "226" && Ascii.eqb a1 "132"
                     && Ascii.eqb a2 "170"
                  then is_K b && EqualFold s''' t'
                  else false
              | "" => false
              end
        | "" => false
        end
  | _, _ => false
  end.

(** [strings.NewReplacer("\r\n", " ", "\n", " ")]: at each position the
    first matching pattern, in argument order, is replaced *)
Fixpoint replace_newlines (s : string) : string :=
  match s with
  | "" => ""
  | String a s' =>
      if Ascii.eqb a LF then String " " (replace_newlines s')
      else
        match s' with
        | String b s'' =>
            if Ascii.eqb a CR && Ascii.eqb b LF
            then String " " (replace_newlines s'')
            else String a (replace_newlines s')
        | "" => String a ""
        end
  end.

End gostrings.

Module slices.

(** [slices.Sort] on strings: the ascending arrangement of the elements
    under the byte-wise lexicographic order *)
Definition Sort (x : list string) : list string := merge_sort String.le x.

End slices.

(** ** command.go *)

Record command := {
  name : string;
  params : string;
  jobUUID : string;
  cmd_headers : gmap string string;
  cmd_body : string
}.

(** A call that may panic. *)
Inductive outcome (A : Type) :=
| Return (a : A)
| Panic (msg : string).
Arguments Return {A} a.
Arguments Panic {A} msg.

Definition cmd (name : string) (params : list string) : outcome command :=
  if String.eqb name "" then Panic "command name cannot be empty"
  else Return {| name := name;
                 params := gostrings.Join params " ";
                 jobUUID := "";
                 cmd_headers := ∅;
                 cmd_body := "" |}.

Definition WithMessage (c : command) (h : gmap string string) (body : string)
  : command :=
  {| name := name c; params := params c; jobUUID := jobUUID c;
     cmd_headers := h; cmd_body := body |}.

(** [range_keys m ks]: [ks] is an order in which [range m] may yield the keys *)
Definition range_keys (m : gmap string string) (ks : list string) : Prop :=
  ks ≡ₚ (map_to_list m).*1.

(** [m[k]]: the zero value when [k] is absent *)
Definition map_get (m : gmap string string) (k : string) : string :=
  default "" (m !! k).

Module strconv.

Inductive NumError := ErrSyntax | ErrRange.

Definition is_digit (c : ascii) : bool :=
  let n := N_of_ascii c in (48 <=? n)%N && (n <=? 57)%N.

Definition maxUint64 : Z := 2 ^ 64 - 1.

(** the loop of [strconv.ParseUint(s, 10, 64)]; [n] is the [uint64]
    accumulator, its wrap-around written out *)
Fixpoint ParseUint_loop (s : string) (n : Z) : Z * option NumError :=
  match s with
  | "" => (n, None)
  | String c s' =>
      if negb (is_digit c) then (0, Some ErrSyntax)
      else
        let d := Z.of_N (N_of_ascii c) - 48 in
        if n >=? maxUint64 / 10 + 1 then (maxUint64, Some ErrRange)
        else
          let n := n * 10 in
          let n1 := (n + d) mod 2 ^ 64 in
          if (n1 <? n) || (n1 >? maxUint64) then (maxUint64, Some ErrRange)
          else ParseUint_loop s' n1
  end.

Definition ParseUint (s : string) : Z * option NumError :=
  match s with
  | "" => (0, Some ErrSyntax)
  | _ => ParseUint_loop s 0
  end.

(** [strconv.ParseInt(s, 10, 64)]: a value out of range comes back as the
    nearest bound together with the range error *)
Definition ParseInt (s : string) : Z * option NumError :=
  match s with
  | "" => (0, Some ErrSyntax)
  | String c s' =>
      let neg := Ascii.eqb c "-" in
      let s1 := if Ascii.eqb c "+" || neg then s' else s in
      let '(un, err) := ParseUint s1 in
      match err with
      | Some ErrSyntax => (0, err)
      | _ =>
          let cutoff := 2 ^ 63 in
          if negb neg && (un >=? cutoff) then (cutoff - 1, Some ErrRange)
          else if neg && (un >? cutoff) then (- cutoff, Some ErrRange)
          else (if neg then - un else un, None)
      end
  end.

(** [strconv.Atoi]: its fast path for short inputs and [ParseInt(s, 10, 0)]
    compute the same value and the same kind of error *)
Definition Atoi (s : string) : Z * option NumError := ParseInt s.

Definition digit (d : Z) : ascii := ascii_of_N (Z.to_N (48 + d)).

(** decimal digits of [n], most significant first, put before [acc]; 20
    rounds cover every 64-bit value *)
Fixpoint format_loop (fuel : nat) (n : Z) (acc : string) : string :=
  match fuel with
  | O => acc
  | S fuel =>
      let acc := String (digit (n mod 10)) acc in
      if n / 10 =? 0 then acc else format_loop fuel (n / 10) acc
  end.

(** [strconv.Itoa] *)
Definition Itoa (i : Z) : string :=
  if i <? 0 then String "-" (format_loop 20 (- i) "")
  else format_loop 20 i "".

End strconv.

Module url.

Definition ishex (c : ascii) : bool :=
  let n := N_of_ascii c in
  ((48 <=? n) && (n <=? 57) || (97 <=? n) && (n <=? 102)
   || (65 <=? n) && (n <=? 70))%N.

Definition unhex (c : ascii) : N :=
  let n := N_of_ascii c in
  (if (48 <=? n) && (n <=? 57) then n - 48
   else if (97 <=? n) && (n <=? 102) then n - 97 + 10
   else if (65 <=? n) && (n <=? 70) then n - 65 + 10
   else 0)%N.

(** first pass of [url.unescape]: every [%] is followed by two hex digits *)
Fixpoint well_formed (s : string) : bool :=
  match s with
  | "" => true
  | String c s' =>
      if Ascii.eqb c "%" then
        match s' with
        | String a (String b s'') => ishex a && ishex b && well_formed s''
        | _ => false
        end
      else well_formed s'
  end.

(** second pass: [%XY] becomes the byte [XY]; in a path segment [+] stays *)
Fixpoint decode (s : string) : string :=
  match s with
  | "" => ""
  | String c s' =>
      if Ascii.eqb c "%" then
        match s' with
        | String a (String b s'') =>
            String (ascii_of_N (N.lor (N.shiftl (unhex a) 4) (unhex b)))
                   (decode s'')
        | _ => String c s'
        end
      else String c (decode s')
  end.

(** [url.PathUnescape]: [None] stands for the [EscapeError] *)
Definition PathUnescape (s : string) : option string :=
  if well_formed s then Some (decode s) else None.

End url.

Module time.

(** [time.Time] as the instant it denotes: seconds since January 1,
    year 1, 00:00:00 UTC, and nanoseconds within the second *)
Record Time := { sec : Z; nsec : Z }.

(** [time.Time{}], the zero instant *)
Definition zero : Time := {| sec := 0; nsec := 0 |}.

Definition unixToInternal : Z :=
  (1969 * 365 + 1969 / 4 - 1969 / 100 + 1969 / 400) * 86400.

(** [time.Unix] *)
Definition Unix (s ns : Z) : Time :=
  if (ns <? 0) || (ns >=? 1000000000) then
    let n := Z.quot ns 1000000000 in
    let s := s + n in
    let ns := ns - n * 1000000000 in
    if ns <? 0
    then {| sec := s - 1 + unixToInternal; nsec := ns + 1000000000 |}
    else {| sec := s + unixToInternal; nsec := ns |}
  else {| sec := s + unixToInternal; nsec := ns |}.

(** [time.UnixMicro] *)
Definition UnixMicro (usec : Z) : Time :=
  Unix (Z.quot usec 1000000) (Z.rem usec 1000000 * 1000).

End time.

(** ** Errors *)

(** The error values the package returns.  [fmt.Errorf] with [%s] is
    [errors_New] of the finished text; with [%w] it is [Errorf_w] of the text
    before the colon and the wrapped error; the two messages formatted with
    [%q] keep their argument. *)
Inductive error :=
| io_EOF
| io_ErrUnexpectedEOF
| ErrMissingAuthRequest
| ErrAccessDenied
| ErrInvalidPassword
| ErrTimeout
| errors_New (text : string)
| Errorf_w (text : string) (err : error)
| MalformedHeaderLine (line : bytes)
| MalformedContentLength (value : string)
| WriteFailed (reason : string).


(** the largest slice the runtime allocates (linux/amd64); [make] panics
    above it and is taken to succeed below it *)
Definition maxAlloc : Z := 2 ^ 48.

(** Modelled from the spec: the content-type constants [disconnectNotice],
    [commandReply] and [eventPlain], which the package declares in a file that
    is not among the sources; the spec names the content types
    "text/disconnect-notice", "command/reply" and "text/event-plain". *)
Definition disconnectNotice : string := "text/disconnect-notice".
Definition commandReply : string := "command/reply".
Definition eventPlain : string := "text/event-plain".

(** [command.WriteTo]; [range] is the order in which the header map is
    ranged over *)
Definition command_WriteTo (range : list string) (c : command) : bytes :=
  let buf := WriteString "" (name c) in
  let buf :=
    if negb (String.eqb (params c) "")
    then WriteString (WriteByte buf " ") (params c) else buf in
  let buf :=
    if negb (String.eqb (jobUUID c) "")
    then WriteString (WriteString buf (String LF "Job-UUID: ")) (jobUUID c)
    else buf in
  let buf :=
    if 0 <? Z.of_nat (size (cmd_headers c)) then
      let keys := slices.Sort range in
      foldl (fun buf k =>
               WriteString
                 (WriteString (WriteString (WriteByte buf LF) k) ": ")
                 (map_get (cmd_headers c) k))
            buf keys
    else buf in
  if negb (String.eqb (cmd_body c) "") then
    WriteString
      (WriteString
         (WriteString (WriteString buf (String LF "content-length: "))
                      (strconv.Itoa (len (cmd_body c))))
         (String LF (String LF "")))
      (cmd_body c)
  else buf.

(** [command.IsZero] *)
Definition command_IsZero (c : command) : bool := String.eqb (name c) "".

(** a Go map filled by assigning the pairs of [kvs] one after the other *)
Definition build_map (kvs : list (string * string)) : gmap string string :=
  foldl (fun m kv => <[kv.1 := kv.2]> m) ∅ kvs.

(** strict byte-wise lexicographic order, Go's [<] on strings *)
Definition string_lt (s1 s2 : string) : Prop := String.ltb s1 s2 = true.

(** the first line of a serialized command: verb, parameters and job id *)
Definition command_head (c : command) : bytes :=
  name c
  +:+ (if String.eqb (params c) "" then "" else " " +:+ params c)
  +:+ (if String.eqb (jobUUID c) "" then ""
       else String LF "Job-UUID: " +:+ jobUUID c).

(** one header line per key of [keys], in that order *)
Fixpoint header_block (m : gmap string string) (keys : list string) : bytes :=
  match keys with
  | [] => ""
  | k :: keys =>
      String LF k +:+ ": " +:+ map_get m k +:+ header_block m keys
  end.

(** the content-length line, the blank line and the body *)
Definition command_tail (c : command) : bytes :=
  if String.eqb (cmd_body c) "" then ""
  else String LF "content-length: " +:+ strconv.Itoa (len (cmd_body c))
       +:+ String LF (String LF "") +:+ cmd_body c.

(** ** encoding/json, as far as [map[string]string] needs it *)

Module json.



Definition tail (s : string) : string :=
  match s with String _ s' => s' | "" => "" end.







End json.

(** ** event.go *)

Record Event := { headers : gmap string string; body : bytes }.


Definition Event_Get (e : Event) (key : string) : string :=
  map_get (headers e) key.

Definition Event_Name (e : Event) : string :=
  let name := Event_Get e "Event-Subclass" in
  if negb (String.eqb name "") then name else Event_Get e "Event-Name".

Definition Event_ContentLength (e : Event) : Z := len (body e).

(** [Event.Sequence]: the value [ParseInt] hands back, its error dropped *)
Definition Event_Sequence (e : Event) : Z :=
  (strconv.ParseInt (Event_Get e "Event-Sequence")).1.

Definition Event_Timestamp (e : Event) : time.Time :=
  let ts := Event_Get e "Event-Date-Timestamp" in
  match strconv.ParseInt ts with
  | (i, None) => time.UnixMicro i
  | (_, Some _) => time.zero
  end.

Definition skipNewLines : string → string := gostrings.replace_newlines.

(** [Event.WriteTo]; [range] is the order in which the header map is ranged
    over *)
Definition Event_WriteTo (range : list string) (e : Event) : bytes :=
  let keys :=
    foldl (fun keys k =>
             if gostrings.EqualFold k "Content-Length" then keys
             else keys ++ [k])
          [] range in
  let keys := slices.Sort keys in
  let buf :=
    foldl (fun buf k =>
             WriteByte
               (WriteString (WriteString (WriteString buf k) ": ")
                            (skipNewLines (map_get (headers e) k)))
               LF)
          "" keys in
  let length := len (body e) in
  if 0 <? length then
    WriteString
      (WriteString
         (WriteString (WriteString buf "Content-Length: ")
                      (strconv.Itoa length))
         (String LF (String LF "")))
      (body e)
  else buf.



(** [trimLeft] of tools.go *)
Fixpoint trimLeft (b : bytes) : string :=
  match b with
  | "" => ""
  | String c b' =>
      if negb (Ascii.eqb c " ") && negb (Ascii.eqb c TAB) then b
      else trimLeft b'
  end.

(** the header loop of [parseEvent]: the header map and the bytes left when
    the loop ends, or the map and the error it returns with.  Every round
    that goes on removes a line and its newline from [body], so
    [String.length body] rounds are enough. *)
Fixpoint parseEvent_loop (fuel : nat) (headers : gmap string string)
    (body : bytes) : gmap string string * (bytes + error) :=
  match fuel with
  | O => (headers, inl body)
  | S fuel =>
      if negb (0 <? len body) then (headers, inl body)
      else
        let i := gobytes.IndexByte body LF in
        let '(line, body) :=
          if 0 <=? i then (slice_to body i, slice_from body (i + 1))
          else ("", body) in
        if (len line =? 0)
           || ((len line =? 1) && gobytes.HasPrefix line (String CR ""))
        then (headers, inl body)
        else
          let idx := gobytes.IndexByte line ":" in
          if idx <=? 0 then (headers, inr (MalformedHeaderLine line))
          else
            let key := slice_to line idx in
            let value := trimLeft (slice_from line (idx + 1)) in
            let value :=
              match url.PathUnescape value with
              | Some v => v
              | None => value
              end in
            parseEvent_loop fuel (<[key := value]> headers) body
  end.

(** [parseEvent] *)
Definition parseEvent (body : bytes) : outcome (Event * option error) :=
  match parseEvent_loop (String.length body) ∅ body with
  | (h, inr err) => Return ({| headers := h; body := "" |}, Some err)
  | (h, inl body) =>
      let length := (strconv.Atoi (map_get h "Content-Length")).1 in
      if 0 <? length then
        if maxAlloc <? length then Panic "makeslice: len out of range"
        else
          let copied := Z.min length (len body) in
          let ebody :=
            slice_to body copied
            +:+ str_repeat "000" (Z.to_nat (length - copied)) in
          if negb (copied =? length)
          then Return ({| headers := h; body := ebody |},
                       Some (Errorf_w "failed to read body"
                                      io_ErrUnexpectedEOF))
          else Return ({| headers := h; body := ebody |}, None)
      else Return ({| headers := h; body := "" |}, None)
  end.

(** ** response.go *)

Record response := {
  contentType : string;
  text : string;
  resp_jobUUID : string;
  resp_body : bytes
}.

Definition response_zero : response :=
  {| contentType := ""; text := ""; resp_jobUUID := ""; resp_body := "" |}.

(** [response.AsErr]: [None] is the nil error *)
Definition response_AsErr (r : response) : option error :=
  if String.eqb (contentType r) disconnectNotice then Some io_EOF
  else if String.eqb (contentType r) commandReply then
    if gobytes.HasPrefix (text r) "-ERR" then Some (errors_New (text r))
    else None
  else if String.eqb (contentType r) "api/response" then
    if gobytes.HasPrefix (resp_body r) "-ERR"
    then Some (errors_New (resp_body r))
    else None
  else None.

Definition response_isZero (r : response) : bool :=
  String.eqb (contentType r) "".

Definition response_toEvent (r : response) : outcome (Event * option error) :=
  if negb (String.eqb (contentType r) eventPlain)
  then Return ({| headers := ∅; body := "" |},
               Some (errors_New ("unsupported event content type: "
                                 +:+ contentType r)))
  else parseEvent (resp_body r).

(** ** events.go *)

Definition eventNames_entries : list string :=
    [ "CUSTOM"; "CLONE"; "CHANNEL_CREATE"; "CHANNEL_DESTROY"; "CHANNEL_STATE";
      "CHANNEL_CALLSTATE"; "CHANNEL_ANSWER"; "CHANNEL_HANGUP";
      "CHANNEL_HANGUP_COMPLETE"; "CHANNEL_EXECUTE";
      "CHANNEL_EXECUTE_COMPLETE"; "CHANNEL_HOLD"; "CHANNEL_UNHOLD";
      "CHANNEL_BRIDGE"; "CHANNEL_UNBRIDGE"; "CHANNEL_PROGRESS";
      "CHANNEL_PROGRESS_MEDIA"; "CHANNEL_OUTGOING"; "CHANNEL_PARK";
      "CHANNEL_UNPARK"; "CHANNEL_APPLICATION"; "CHANNEL_ORIGINATE";
      "CHANNEL_UUID"; "API"; "LOG"; "INBOUND_CHAN"; "OUTBOUND_CHAN";
      "STARTUP"; "SHUTDOWN"; "PUBLISH"; "UNPUBLISH"; "TALK"; "NOTALK";
      "SESSION_CRASH"; "MODULE_LOAD"; "MODULE_UNLOAD"; "DTMF"; "MESSAGE";
      "PRESENCE_IN"; "NOTIFY_IN"; "PRESENCE_OUT"; "PRESENCE_PROBE";
      "MESSAGE_WAITING"; "MESSAGE_QUERY"; "ROSTER"; "CODEC";
      "BACKGROUND_JOB"; "DETECTED_SPEECH"; "DETECTED_TONE";
      "PRIVATE_COMMAND"; "HEARTBEAT"; "TRAP"; "ADD_SCHEDULE"; "DEL_SCHEDULE";
      "EXE_SCHEDULE"; "RE_SCHEDULE"; "RELOADXML"; "NOTIFY"; "PHONE_FEATURE";
      "PHONE_FEATURE_SUBSCRIBE"; "SEND_MESSAGE"; "RECV_MESSAGE";
      "REQUEST_PARAMS"; "CHANNEL_DATA"; "GENERAL"; "COMMAND";
      "SESSION_HEARTBEAT"; "CLIENT_DISCONNECTED"; "SERVER_DISCONNECTED";
      "SEND_INFO"; "RECV_INFO"; "RECV_RTCP_MESSAGE"; "SEND_RTCP_MESSAGE";
      "CALL_SECURE"; "NAT"; "RECORD_START"; "RECORD_STOP"; "PLAYBACK_START";
      "PLAYBACK_STOP"; "CALL_UPDATE"; "FAILURE"; "SOCKET_DATA";
      "MEDIA_BUG_START"; "MEDIA_BUG_STOP"; "CONFERENCE_DATA_QUERY";
      "CONFERENCE_DATA"; "CALL_SETUP_REQ"; "CALL_SETUP_RESULT";
      "CALL_DETAIL"; "DEVICE_STATE"; "TEXT"; "SHUTDOWN_REQUESTED" ].

Definition eventNames : gset string := list_to_set eventNames_entries.

Definition eventAll : string := "all".

(** the loop of [buildEventNamesCmd] over the builders [native] and [custom]
    and the flag [isCustom]; [None] when the loop returns [eventAll] *)
Fixpoint buildEventNamesCmd_loop (names : list string)
    (native custom : string) (isCustom : bool)
  : option (string * string * bool) :=
  match names with
  | [] => Some (native, custom, isCustom)
  | name :: names =>
      if String.eqb name "" then
        buildEventNamesCmd_loop names native custom isCustom
      else if gostrings.EqualFold name eventAll then None
      else if gostrings.EqualFold name "CUSTOM" then
        buildEventNamesCmd_loop names native custom true
      else if bool_decide (name ∈ eventNames) then
        let native :=
          if 0 <? len native then WriteByte native " " else native in
        buildEventNamesCmd_loop names (WriteString native name) custom
                                isCustom
      else
        let custom :=
          if 0 <? len custom then WriteByte custom " " else custom in
        buildEventNamesCmd_loop
          names native
          (WriteString custom (gostrings.TrimPrefix name "CUSTOM "))
          isCustom
  end.

Definition buildEventNamesCmd (names : list string) : string :=
  match names with
  | [] => eventAll
  | first :: _ =>
      if String.eqb first "" || gostrings.EqualFold first eventAll
      then eventAll
      else
        match buildEventNamesCmd_loop names "" "" false with
        | None => eventAll
        | Some (native, custom, isCustom) =>
            let native :=
              if isCustom || (0 <? len custom) then
                let native :=
                  if 0 <? len native then WriteByte native " "
                  else native in
                let native := WriteString native "CUSTOM" in
                if 0 <? len custom
                then WriteString (WriteByte native " ") custom
                else native
              else native in
            if len native =? 0 then eventAll else native
        end
  end.

(** ** conn.go *)

Inductive level := Info | Warn.

(** A connection over a byte stream.  [conn_r]: the bytes the peer has sent
    and the reader has not consumed yet, after which the stream ends
    ([io.EOF]).  [conn_w]: the bytes delivered to the peer so far.
    [conn_wfail]: when set, the stream refuses every write with that error.
    [conn_log]: the records handed to the logger, latest last. *)
Record conn := {
  conn_r : bytes;
  conn_w : bytes;
  conn_wfail : option error;
  conn_log : list (level * string)
}.

Definition set_r (c : conn) (r : bytes) : conn :=
  {| conn_r := r; conn_w := conn_w c; conn_wfail := conn_wfail c;
     conn_log := conn_log c |}.

Definition add_log (c : conn) (l : level) (msg : string) : conn :=
  {| conn_r := conn_r c; conn_w := conn_w c; conn_wfail := conn_wfail c;
     conn_log := conn_log c ++ [(l, msg)] |}.

(** size of the buffer of [bufio.NewReader] *)
Definition defaultBufSize : nat := 4096.

Definition last_is (c : ascii) (s : bytes) : bool :=
  match String.length s with
  | O => false
  | S n => gobytes.HasPrefix (str_drop n s) (String c "")
  end.

(** [bufio.Reader.ReadLine]: the line up to the next newline, without its
    ["\n"] or ["\r\n"]; when the next [defaultBufSize] bytes hold no newline
    they are handed out as a prefix of the line ([isPrefix] true), a trailing
    ["\r"] being kept back for the next call; the bytes before the end of the
    stream are a last line; at the end of the stream the error is [io.EOF] *)
Definition bufio_ReadLine (c : conn) : (bytes * bool * option error) * conn :=
  let data := conn_r c in
  if len data =? 0 then (("", false, Some io_EOF), c)
  else
    let i := gobytes.IndexByte (str_take defaultBufSize data) LF in
    if 0 <=? i then
      let line := slice_to data i in
      let line :=
        if last_is CR line then slice_to line (len line - 1) else line in
      ((line, false, None), set_r c (slice_from data (i + 1)))
    else if Z.of_nat defaultBufSize <=? len data then
      let line := str_take defaultBufSize data in
      let line :=
        if last_is CR line then slice_to line (len line - 1) else line in
      ((line, true, None), set_r c (slice_from data (len line)))
    else ((data, false, None), set_r c "").

(** [conn.readLine]; a round that goes on has consumed a prefix of the line,
    so [String.length (conn_r c)] rounds are enough.  ([fullLine == nil] is
    "no prefix accumulated so far".) *)
Fixpoint readLine_loop (fuel : nat) (fullLine : bytes) (c : conn)
  : (bytes * option error) * conn :=
  match fuel with
  | O => (("", Some io_EOF), c)
  | S fuel =>
      let '((line, more, err), c) := bufio_ReadLine c in
      match err with
      | Some e => (("", Some e), c)
      | None =>
          if (len fullLine =? 0) && negb more then ((line, None), c)
          else
            let fullLine := fullLine +:+ line in
            if negb more then ((fullLine, None), c)
            else readLine_loop fuel fullLine c
      end
  end.

Definition conn_readLine (c : conn) : (bytes * option error) * conn :=
  readLine_loop (S (String.length (conn_r c))) "" c.

Definition set_contentType (r : response) (v : string) : response :=
  {| contentType := v; text := text r; resp_jobUUID := resp_jobUUID r;
     resp_body := resp_body r |}.
Definition set_text (r : response) (v : string) : response :=
  {| contentType := contentType r; text := v; resp_jobUUID := resp_jobUUID r;
     resp_body := resp_body r |}.
Definition set_jobUUID (r : response) (v : string) : response :=
  {| contentType := contentType r; text := text r; resp_jobUUID := v;
     resp_body := resp_body r |}.
Definition set_body (r : response) (v : bytes) : response :=
  {| contentType := contentType r; text := text r;
     resp_jobUUID := resp_jobUUID r; resp_body := v |}.

(** the header loop of [conn.Read]: [inl] when it breaks at the blank line,
    with the content length and the response read so far; [inr] when it
    returns with an error.  Every round reads a line, so
    [S (String.length (conn_r c))] rounds are enough. *)
Fixpoint Read_loop (fuel : nat) (contentLength : Z) (resp : response)
    (c : conn) : (Z * response + response * error) * conn :=
  match fuel with
  | O => (inr (resp, io_EOF), c)
  | S fuel =>
      let '((line, err), c) := conn_readLine c in
      match err with
      | Some e => (inr (resp, e), c)
      | None =>
          if len line =? 0 then
            if response_isZero resp
            then Read_loop fuel contentLength resp c
            else (inl (contentLength, resp), c)
          else
            let idx := gobytes.IndexByte line ":" in
            if idx <=? 0 then (inr (resp, MalformedHeaderLine line), c)
            else
              let key := slice_to line idx in
              let value := trimLeft (slice_from line (idx + 1)) in
              if String.eqb key "Content-Type" then
                Read_loop fuel contentLength (set_contentType resp value) c
              else if String.eqb key "Reply-Text" then
                Read_loop fuel contentLength (set_text resp value) c
              else if String.eqb key "Job-UUID" then
                Read_loop fuel contentLength (set_jobUUID resp value) c
              else if String.eqb key "Content-Length" then
                match strconv.Atoi value with
                | (_, Some _) =>
                    (inr (resp, MalformedContentLength value), c)
                | (n, None) => Read_loop fuel n resp c
                end
              else
                Read_loop fuel contentLength resp
                  (add_log c Warn "esl: unsupported response header")
      end
  end.

(** [io.ReadFull(c.r, buf)] for a [buf] of [n] zero bytes: the buffer as it
    is left, and the error *)
Definition io_ReadFull (n : Z) (c : conn) : (bytes * option error) * conn :=
  let data := conn_r c in
  if n <=? len data
  then ((slice_to data n, None), set_r c (slice_from data n))
  else
    ((data +:+ str_repeat "000" (Z.to_nat (n - len data)),
      Some (if len data =? 0 then io_EOF else io_ErrUnexpectedEOF)),
     set_r c "").

(** [conn.Read] *)
Definition conn_Read (c : conn) : outcome ((response * option error) * conn) :=
  match Read_loop (S (String.length (conn_r c))) 0 response_zero c with
  | (inr (resp, err), c) => Return ((resp, Some err), c)
  | (inl (contentLength, resp), c) =>
      if 0 <? contentLength then
        if maxAlloc <? contentLength
        then Panic "makeslice: len out of range"
        else
          let '((b, err), c) := io_ReadFull contentLength c in
          let resp := set_body resp b in
          match err with
          | Some e =>
              Return ((resp, Some (Errorf_w "failed to read body" e)), c)
          | None => Return ((resp, None), add_log c Info "esl: receive")
          end
      else Return ((resp, None), add_log c Info "esl: receive")
  end.

(** [conn.Write]; the command and the frame terminator pass through the
    buffered writer and reach the stream at the flush, whole or not at all *)
Definition conn_Write (cmd : command) (range : list string) (c : conn)
  : option error * conn :=
  if command_IsZero cmd then (None, c)
  else
    let c := add_log c Info "esl: send" in
    let buf := command_WriteTo range cmd in
    let buf := WriteString buf (String LF (String LF "")) in
    match conn_wfail c with
    | Some err => (Some (Errorf_w "failed to send command" err), c)
    | None =>
        (None,
         {| conn_r := conn_r c; conn_w := conn_w c +:+ buf;
            conn_wfail := None; conn_log := conn_log c |})
    end.

(** [conn.Auth] *)
Definition conn_Auth (password : string) (c : conn)
  : outcome (option error * conn) :=
  match conn_Read c with
  | Panic msg => Panic msg
  | Return ((_, Some _), c) => Return (Some ErrMissingAuthRequest, c)
  | Return ((resp, None), c) =>
      let ct := contentType resp in
      if String.eqb ct "auth/request" then
        match cmd "auth" [password] with
        | Panic msg => Panic msg
        | Return auth =>
            match conn_Write auth [] c with
            | (Some err, c) =>
                Return (Some (Errorf_w "failed to send auth" err), c)
            | (None, c) =>
                match conn_Read c with
                | Panic msg => Panic msg
                | Return ((_, Some err), c) =>
                    Return
                      (Some (Errorf_w "failed to read auth response" err), c)
                | Return ((resp, None), c) =>
                    let ct := contentType resp in
                    if negb (String.eqb ct commandReply) then
                      Return
                        (Some (errors_New
                                 ("unexpected auth response content type: "
                                  +:+ ct)), c)
                    else if negb (String.eqb (text resp) "+OK accepted")
                    then Return (Some ErrInvalidPassword, c)
                    else Return (None, c)
                end
            end
        end
      else if String.eqb ct "text/rude-rejection" then
        Return (Some ErrAccessDenied, c)
      else if String.eqb ct disconnectNotice then Return (Some io_EOF, c)
      else
        Return
          (Some (errors_New
                   ("unexpected auth request content type: " +:+ ct)), c)
  end.

(** ** Notions used by the statements *)

Module instant.
(** nanoseconds from the Unix epoch (January 1, 1970 UTC) to [t] *)
Definition since_epoch (t : time.Time) : Z :=
  (time.sec t - time.unixToInternal) * 1000000000 + time.nsec t.

(** the Unix epoch as a [time.Time] *)
Definition epoch : time.Time := time.UnixMicro 0.
End instant.

(** a letter of A-Z as its lower-case form, any other byte unchanged *)
Definition lower_byte (c : ascii) : ascii :=
  if gostrings.is_upper c then ascii_of_N (N_of_ascii c + 32) else c.

Fixpoint lower_ascii (s : string) : string :=
  match s with
  | "" => ""
  | String c s' => String (lower_byte c) (lower_ascii s')
  end.


(** the names of [names] other than [CUSTOM], in their order, and the token
    [CUSTOM] after them when it was among [names] *)
Definition natives_then_CUSTOM (names : list string) : list string :=
  filter (fun n => n ≠ "CUSTOM") names
  ++ (if bool_decide ("CUSTOM" ∈ names) then ["CUSTOM"] else []).

(** every byte of [s] is below 0x80 *)
Fixpoint all_ascii (s : string) : bool :=
  match s with
  | "" => true
  | String c s' => (N_of_ascii c <? 128)%N && all_ascii s'
  end.

(** what the loop of [buildEventNamesCmd] appends to a builder for one name *)
Definition append_name (builder name : string) : string :=
  WriteString (if 0 <? len builder then WriteByte builder " " else builder)
              name.



(** the header lines [Event.WriteTo] writes for [keys], in that order *)
Fixpoint event_lines (m : gmap string string) (keys : list string) : bytes :=
  match keys with
  | [] => ""
  | k :: keys =>
      k +:+ ": " +:+ skipNewLines (map_get m k)
        +:+ String LF (event_lines m keys)
  end.

(** a header key that a header line carries unchanged: not empty, without
    colon and without newline *)
Definition wire_safe_key (k : string) : Prop :=
  k ≠ "" ∧ gobytes.IndexByte k ":" = -1 ∧ gobytes.IndexByte k LF = -1.

(** a header value that a header line carries unchanged: without newline,
    not starting with a space or a tab, and left alone by percent-decoding *)
Definition wire_safe_value (v : string) : Prop :=
  gobytes.IndexByte v LF = -1
  ∧ trimLeft v = v
  ∧ (url.PathUnescape v = None ∨ url.PathUnescape v = Some v).

Fixpoint all_digits (s : string) : bool :=
  match s with
  | "" => true
  | String c s' => strconv.is_digit c && all_digits s'
  end.

(** * Properties *)

(** ** Byte sequences *)

Section bytes_facts.
Implicit Types s t u : string.

Lemma str_app_nil_l s : "" +:+ s = s.
Proof. reflexivity. Qed.

Lemma str_app_cons a s t : String a s +:+ t = String a (s +:+ t).
Proof. reflexivity. Qed.

Lemma str_app_nil_r s : s +:+ "" = s.
Proof. induction s; rewrite ?str_app_cons; [done | congruence]. Qed.

Lemma str_app_assoc s t u : (s +:+ t) +:+ u = s +:+ t +:+ u.
Proof. induction s; rewrite ?str_app_cons; [done | congruence]. Qed.

Lemma str_length_app s t :
  String.length (s +:+ t) = (String.length s + String.length t)%nat.
Proof. induction s; rewrite ?str_app_cons; simpl; [done | congruence]. Qed.

Lemma str_take_app s t : str_take (String.length s) (s +:+ t) = s.
Proof.
  induction s; rewrite ?str_app_cons; simpl; [by destruct t | congruence].
Qed.

Lemma str_drop_app s t : str_drop (String.length s) (s +:+ t) = t.
Proof. induction s; rewrite ?str_app_cons; simpl; [done | congruence]. Qed.

Lemma str_take_all s n : (String.length s <= n)%nat → str_take n s = s.
Proof.
  revert n; induction s as [|a s IH]; intros [|n] Hn; simpl in *;
    try reflexivity; try lia.
  f_equal. apply IH. lia.
Qed.
End bytes_facts.

(** ** Sorting the keys of a map *)

Section sorted_keys.

Lemma string_le_neq_lt s1 s2 : String.le s1 s2 → s1 ≠ s2 → string_lt s1 s2.
Proof.
  unfold String.le, string_lt, String.leb, String.ltb. intros Hle Hne.
  destruct (s1 ?= s2)%string eqn:Hc; try done.
  by apply String.compare_eq_iff in Hc.
Qed.

Lemma string_lt_le s1 s2 : string_lt s1 s2 → String.le s1 s2.
Proof.
  unfold String.le, string_lt, String.leb, String.ltb.
  by destruct (s1 ?= s2)%string.
Qed.

Lemma Sort_sorted ks : Sorted String.le (slices.Sort ks).
Proof. apply (Sorted_merge_sort String.le). Qed.

Lemma Sort_perm ks : slices.Sort ks ≡ₚ ks.
Proof. apply (merge_sort_Permutation String.le). Qed.

(** the result of sorting depends on the elements only *)
Lemma Sort_order_irrelevant ks1 ks2 :
  ks1 ≡ₚ ks2 → slices.Sort ks1 = slices.Sort ks2.
Proof.
  intros Hp. apply (Sorted_unique String.le); try apply Sort_sorted.
  by rewrite !Sort_perm.
Qed.

Lemma StronglySorted_le_lt ks :
  NoDup ks → StronglySorted String.le ks → StronglySorted string_lt ks.
Proof.
  induction 2 as [|k ks Hs IH Hall]; constructor.
  - apply IH. by eapply NoDup_cons_1_2.
  - apply NoDup_cons in H as [Hk _].
    rewrite Forall_forall in Hall |- *. intros k' Hin.
    apply string_le_neq_lt; [by apply Hall | by intros ->].
Qed.

Lemma Sort_strictly_ascending ks :
  NoDup ks → StronglySorted string_lt (slices.Sort ks).
Proof.
  intros Hnd. apply StronglySorted_le_lt.
  - by rewrite Sort_perm.
  - apply Sorted_StronglySorted; [apply _ | apply Sort_sorted].
Qed.

Lemma build_map_list_to_map kvs :
  build_map kvs = list_to_map (reverse kvs).
Proof.
  unfold build_map. rewrite <- (reverse_involutive kvs) at 1.
  generalize (reverse kvs) as l. intros l.
  induction l as [|[k v] l IH]; [done|].
  rewrite reverse_cons, foldl_app. simpl. by rewrite IH.
Qed.

(** assigning the same pairs in another order builds the same map *)
Lemma build_map_insertion_order kvs1 kvs2 :
  NoDup kvs1.*1 → kvs1 ≡ₚ kvs2 → build_map kvs1 = build_map kvs2.
Proof.
  intros Hnd Hp. rewrite !build_map_list_to_map.
  apply list_to_map_proper.
  - by rewrite fmap_reverse, reverse_Permutation.
  - by rewrite !reverse_Permutation.
Qed.

End sorted_keys.

(** ** Commands *)

Section command_facts.

Lemma write_headers_block m keys buf :
  foldl (fun buf k =>
           WriteString
             (WriteString (WriteString (WriteByte buf LF) k) ": ")
             (map_get m k)) buf keys
  = buf +:+ header_block m keys.
Proof.
  revert buf; induction keys as [|k keys IH]; intros buf; simpl.
  - by rewrite str_app_nil_r.
  - rewrite IH. unfold WriteString, WriteByte.
    rewrite !str_app_assoc. reflexivity.
Qed.

Lemma command_WriteTo_layout range c :
  cmd_headers c ≠ ∅ →
  command_WriteTo range c
  = command_head c +:+ header_block (cmd_headers c) (slices.Sort range)
    +:+ command_tail c.
Proof.
  intros Hne. unfold command_WriteTo, command_head, command_tail.
  assert ((0 <? Z.of_nat (size (cmd_headers c))) = true) as ->.
  { apply Z.ltb_lt. apply map_size_non_empty_iff in Hne. lia. }
  rewrite write_headers_block. unfold WriteString, WriteByte.
  destruct (String.eqb (params c) ""), (String.eqb (jobUUID c) ""),
    (String.eqb (cmd_body c) ""); simpl;
    rewrite ?str_app_assoc, ?str_app_nil_r; simpl; rewrite ?str_app_nil_r; reflexivity.
Qed.

End command_facts.

(** C3.  A command built with a non-empty header map -- the pairs assigned
    in any order, the map ranged over in any order -- serializes to the same
    bytes, and its header lines follow the keys in strictly ascending
    lexicographic order. *)
Theorem command_WriteTo_sorted_deterministic
    (c : command) (kvs1 kvs2 : list (string * string)) (body : string)
    (range1 range2 : list string) :
  kvs1 ≠ [] → NoDup kvs1.*1 → kvs1 ≡ₚ kvs2 →
  range_keys (build_map kvs1) range1 →
  range_keys (build_map kvs2) range2 →
  command_WriteTo range1 (WithMessage c (build_map kvs1) body)
  = command_WriteTo range2 (WithMessage c (build_map kvs2) body)
  ∧ ∃ keys,
      keys ≡ₚ kvs1.*1 ∧ StronglySorted string_lt keys ∧
      command_WriteTo range1 (WithMessage c (build_map kvs1) body)
      = command_head (WithMessage c (build_map kvs1) body)
        +:+ header_block (build_map kvs1) keys
        +:+ command_tail (WithMessage c (build_map kvs1) body).
Proof.
  intros Hne Hnd Hp Hr1 Hr2.
  rewrite <- (build_map_insertion_order kvs1 kvs2 Hnd Hp) in *.
  assert (build_map kvs1 ≠ ∅) as Hm.
  { destruct kvs1 as [|[k v] l]; [done|].
    rewrite build_map_list_to_map, reverse_cons.
    intros He. apply (f_equal (fun m => m !! k)) in He.
    rewrite lookup_empty in He.
    apply not_elem_of_list_to_map in He. apply He.
    rewrite fmap_app. set_solver. }
  assert (range1 ≡ₚ kvs1.*1) as Hk1.
  { unfold range_keys in Hr1. rewrite Hr1, build_map_list_to_map.
    rewrite map_to_list_to_map; [by rewrite reverse_Permutation|].
    by rewrite fmap_reverse, reverse_Permutation. }
  split.
  - rewrite !command_WriteTo_layout by done. simpl.
    rewrite (Sort_order_irrelevant range1 range2); [done|].
    unfold range_keys in *. by rewrite Hr1, Hr2.
  - exists (slices.Sort range1). split_and!.
    + by rewrite Sort_perm.
    + apply Sort_strictly_ascending. by rewrite Hk1.
    + by rewrite command_WriteTo_layout.
Qed.

(** ** Responses *)

(** C5.  Error classification of a response: a disconnect notice is the
    end-of-stream error; a command reply whose text begins with [-ERR] is an
    error carrying that text; an api response whose body begins with [-ERR]
    is an error carrying that body; anything else is no error. *)
Theorem response_AsErr_classification (r : response) :
  (contentType r = "text/disconnect-notice" → response_AsErr r = Some io_EOF)
  ∧ (contentType r = "command/reply" →
     gobytes.HasPrefix (text r) "-ERR" = true →
     response_AsErr r = Some (errors_New (text r)))
  ∧ (contentType r = "api/response" →
     gobytes.HasPrefix (resp_body r) "-ERR" = true →
     response_AsErr r = Some (errors_New (resp_body r)))
  ∧ (contentType r ≠ "text/disconnect-notice" →
     ¬ (contentType r = "command/reply"
        ∧ gobytes.HasPrefix (text r) "-ERR" = true) →
     ¬ (contentType r = "api/response"
        ∧ gobytes.HasPrefix (resp_body r) "-ERR" = true) →
     response_AsErr r = None).
Proof.
  unfold response_AsErr, disconnectNotice, commandReply.
  split_and!.
  - by intros ->.
  - intros -> ->. reflexivity.
  - intros -> ->. reflexivity.
  - intros Hd Hc Ha.
    destruct (String.eqb_spec (contentType r) "text/disconnect-notice");
      [done|].
    destruct (String.eqb_spec (contentType r) "command/reply").
    { destruct (gobytes.HasPrefix (text r) "-ERR") eqn:Hp; [|done].
      by destruct Hc. }
    destruct (String.eqb_spec (contentType r) "api/response"); [|done].
    destruct (gobytes.HasPrefix (resp_body r) "-ERR") eqn:Hp; [|done].
    by destruct Ha.
Qed.

Lemma response_AsErr_examples :
  response_AsErr {| contentType := "text/disconnect-notice"; text := "";
                    resp_jobUUID := ""; resp_body := "" |} = Some io_EOF
  ∧ response_AsErr {| contentType := "command/reply";
                      text := "-ERR no such command";
                      resp_jobUUID := ""; resp_body := "" |}
    = Some (errors_New "-ERR no such command")
  ∧ response_AsErr {| contentType := "api/response"; text := "";
                      resp_jobUUID := ""; resp_body := "-ERR no reply" |}
    = Some (errors_New "-ERR no reply")
  ∧ response_AsErr {| contentType := "command/reply"; text := "+OK";
                      resp_jobUUID := ""; resp_body := "-ERR in the body" |}
    = None.
Proof. by vm_compute. Qed.

(** ** The connection *)

(** C9.  Writing a zero command is a no-op: no error, nothing sent, nothing
    logged, the connection as it was. *)
Theorem conn_Write_zero_command
    (cmd : command) (range : list string) (c : conn) :
  name cmd = "" → conn_Write cmd range c = (None, c).
Proof. intros Hz. unfold conn_Write, command_IsZero. by rewrite Hz. Qed.

Lemma conn_Write_zero_command_witness :
  conn_Write {| name := ""; params := "status"; jobUUID := "";
                cmd_headers := ∅; cmd_body := "" |} []
             {| conn_r := ""; conn_w := "api status"; conn_wfail := None;
                conn_log := [] |}
  = (None, {| conn_r := ""; conn_w := "api status"; conn_wfail := None;
              conn_log := [] |}).
Proof. apply conn_Write_zero_command. reflexivity. Defined.

Lemma conn_Write_nonzero_sends :
  conn_Write {| name := "api"; params := "status"; jobUUID := "";
                cmd_headers := ∅; cmd_body := "" |} []
             {| conn_r := ""; conn_w := ""; conn_wfail := None;
                conn_log := [] |}
  = (None, {| conn_r := "";
              conn_w := "api status" +:+ String LF (String LF "");
              conn_wfail := None; conn_log := [(Info, "esl: send")] |}).
Proof. by vm_compute. Qed.

(** C6.  The authentication handshake, once the auth request has been read
    and the [auth] command written: a command reply with the text
    [+OK accepted] is success, a command reply with another text fails with
    [ErrInvalidPassword], a reply of another content type fails with the
    unexpected-content-type error; and every success went that way. *)
Theorem conn_Auth_reply_classification (password : string) (c : conn) :
  (∀ req c1 auth c2 reply c3,
     conn_Read c = Return ((req, None), c1) →
     contentType req = "auth/request" →
     cmd "auth" [password] = Return auth →
     conn_Write auth [] c1 = (None, c2) →
     conn_Read c2 = Return ((reply, None), c3) →
     (contentType reply = "command/reply" → text reply = "+OK accepted" →
      conn_Auth password c = Return (None, c3))
     ∧ (contentType reply = "command/reply" → text reply ≠ "+OK accepted" →
        conn_Auth password c = Return (Some ErrInvalidPassword, c3))
     ∧ (contentType reply ≠ "command/reply" →
        conn_Auth password c
        = Return (Some (errors_New ("unexpected auth response content type: "
                                    +:+ contentType reply)), c3)))
  ∧ (∀ c3, conn_Auth password c = Return (None, c3) →
     ∃ req c1 auth c2 reply,
       conn_Read c = Return ((req, None), c1)
       ∧ contentType req = "auth/request"
       ∧ cmd "auth" [password] = Return auth
       ∧ conn_Write auth [] c1 = (None, c2)
       ∧ conn_Read c2 = Return ((reply, None), c3)
       ∧ contentType reply = "command/reply"
       ∧ text reply = "+OK accepted").
Proof.
  split.
  - intros req c1 auth c2 reply c3 Hr1 Hct Hcmd Hw Hr2.
    unfold conn_Auth. rewrite Hr1, Hct. simpl String.eqb. cbv iota.
    rewrite Hcmd, Hw, Hr2. unfold commandReply. split_and!.
    + by intros -> ->.
    + intros -> Ht. simpl.
      by destruct (String.eqb_spec (text reply) "+OK accepted").
    + intros Hne.
      by destruct (String.eqb_spec (contentType reply) "command/reply").
  - intros c3. unfold conn_Auth.
    destruct (conn_Read c) as [[[req [e|]] c1]|] eqn:Hr1; try done.
    destruct (String.eqb_spec (contentType req) "auth/request") as [Hct|].
    2: { by repeat case_match. }
    destruct (cmd "auth" [password]) as [auth|] eqn:Hcmd; [|done].
    destruct (conn_Write auth [] c1) as [[e|] c2] eqn:Hw; [done|].
    destruct (conn_Read c2) as [[[reply [e|]] c3']|] eqn:Hr2; try done.
    unfold commandReply.
    destruct (String.eqb_spec (contentType reply) "command/reply"); [|done].
    destruct (String.eqb_spec (text reply) "+OK accepted"); [|done].
    simpl. intros [= <-]. by exists req, c1, auth, c2, reply.
Qed.

Lemma conn_Auth_handshake_examples :
  let nl := String LF "" in
  let peer s := {| conn_r := "Content-Type: auth/request" +:+ nl +:+ nl +:+ s;
                   conn_w := ""; conn_wfail := None; conn_log := [] |} in
  let verdict o :=
    match o with Return (e, c) => Some (e, conn_w c) | Panic _ => None end in
  verdict (conn_Auth "ClueCon"
             (peer ("Content-Type: command/reply" +:+ nl
                    +:+ "Reply-Text: +OK accepted" +:+ nl +:+ nl)))
  = Some (None, "auth ClueCon" +:+ nl +:+ nl)
  ∧ verdict (conn_Auth "secret"
               (peer ("Content-Type: command/reply" +:+ nl
                      +:+ "Reply-Text: -ERR invalid" +:+ nl +:+ nl)))
    = Some (Some ErrInvalidPassword, "auth secret" +:+ nl +:+ nl)
  ∧ verdict (conn_Auth "secret"
               (peer ("Content-Type: command/reply" +:+ nl
                      +:+ "Reply-Text: +OK accepted." +:+ nl +:+ nl)))
    = Some (Some ErrInvalidPassword, "auth secret" +:+ nl +:+ nl)
  ∧ verdict (conn_Auth "secret"
               (peer ("Content-Type: api/response" +:+ nl
                      +:+ "Reply-Text: +OK accepted" +:+ nl +:+ nl)))
    = Some (Some (errors_New
                    "unexpected auth response content type: api/response"),
            "auth secret" +:+ nl +:+ nl).
Proof. by vm_compute. Qed.

(** ** Event accessors *)

Section accessors.

Lemma ParseInt_syntax_zero s :
  (strconv.ParseInt s).2 = Some strconv.ErrSyntax →
  (strconv.ParseInt s).1 = 0.
Proof.
  unfold strconv.ParseInt. destruct s as [|c s]; [done|].
  destruct (strconv.ParseUint _) as [un [[]|]]; simpl; try done;
    repeat case_match; simpl; done.
Qed.

Lemma ParseUint_loop_nonneg s n :
  0 <= n → 0 <= (strconv.ParseUint_loop s n).1.
Proof.
  revert n; induction s as [|c s IH]; intros n Hn; simpl; [done|].
  repeat case_match; simpl; try done.
  apply IH. apply Z.mod_pos_bound. done.
Qed.

Lemma ParseUint_nonneg s : 0 <= (strconv.ParseUint s).1.
Proof. destruct s; [done|]. by apply ParseUint_loop_nonneg. Qed.

Lemma ParseInt_range s i :
  strconv.ParseInt s = (i, None) → - 2 ^ 63 <= i < 2 ^ 63.
Proof.
  unfold strconv.ParseInt. destruct s as [|ch s]; [done|].
  pose proof (ParseUint_nonneg
                (if Ascii.eqb ch "+" || Ascii.eqb ch "-"
                 then s else String ch s)) as Hun.
  destruct (strconv.ParseUint _) as [un [[]|]]; [done| |].
  all: simpl in Hun; destruct (Ascii.eqb ch "-"); simpl;
    destruct (Z.geb_spec un (2 ^ 63)); simpl; try done;
    destruct (Z.gtb_spec un (2 ^ 63)); simpl; try done.
  all: intros [= <-]; lia.
Qed.

Lemma UnixMicro_nsec_range usec :
  0 <= time.nsec (time.UnixMicro usec) < 1000000000.
Proof.
  unfold time.UnixMicro, time.Unix.
  pose proof (Z.quot_rem' usec 1000000) as Hqr.
  assert (-1000000 < Z.rem usec 1000000 < 1000000) as Hr.
  { pose proof (Z.rem_bound_abs usec 1000000). lia. }
  set (r := Z.rem usec 1000000) in *.
  assert (Z.quot (r * 1000) 1000000000 = 0) as Hq0.
  { apply Z.quot_small_iff; lia. }
  rewrite Hq0. repeat case_match; simpl; lia.
Qed.

(** [time.UnixMicro usec] is the instant [usec] microseconds from the
    Unix epoch *)
Lemma UnixMicro_since_epoch usec :
  instant.since_epoch (time.UnixMicro usec) = usec * 1000.
Proof.
  unfold instant.since_epoch, time.UnixMicro, time.Unix.
  pose proof (Z.quot_rem' usec 1000000) as Hqr.
  assert (-1000000 < Z.rem usec 1000000 < 1000000) as Hr.
  { pose proof (Z.rem_bound_abs usec 1000000). lia. }
  set (r := Z.rem usec 1000000) in *.
  set (q := Z.quot usec 1000000) in *.
  assert (Z.quot (r * 1000) 1000000000 = 0) as Hq0.
  { apply Z.quot_small_iff; lia. }
  rewrite Hq0. repeat case_match; simpl; lia.
Qed.

End accessors.

(** C8, as the code has it.  [Sequence] is the [Event-Sequence] header
    parsed as an int64 and [Timestamp] the instant [Event-Date-Timestamp]
    microseconds from the Unix epoch; neither returns an error: when the
    header is absent or is not a decimal integer the sequence is zero, and
    when the header is absent or fails to parse the timestamp is the zero
    [time.Time] (January 1 of year 1), which is not the Unix epoch. *)
Theorem Event_Sequence_Timestamp_defaults (e : Event) :
  (∀ i, strconv.ParseInt (Event_Get e "Event-Sequence") = (i, None) →
        Event_Sequence e = i ∧ - 2 ^ 63 <= i < 2 ^ 63)
  ∧ (∀ i, strconv.ParseInt (Event_Get e "Event-Date-Timestamp") = (i, None) →
          Event_Timestamp e = time.UnixMicro i
          ∧ instant.since_epoch (Event_Timestamp e) = i * 1000)
  ∧ (headers e !! "Event-Sequence" = None
     ∨ (strconv.ParseInt (Event_Get e "Event-Sequence")).2
       = Some strconv.ErrSyntax →
     Event_Sequence e = 0)
  ∧ (headers e !! "Event-Date-Timestamp" = None
     ∨ (strconv.ParseInt (Event_Get e "Event-Date-Timestamp")).2 ≠ None →
     Event_Timestamp e = time.zero)
  ∧ instant.since_epoch time.zero = - 62135596800 * 1000000000.
Proof.
  unfold Event_Sequence, Event_Timestamp, Event_Get, map_get. split_and!.
  - intros i Hp. rewrite Hp. split; [done|]. by eapply ParseInt_range.
  - intros i Hp. rewrite Hp. split; [done|]. apply UnixMicro_since_epoch.
  - intros [Hn|Hs].
    + by rewrite Hn.
    + by apply ParseInt_syntax_zero.
  - intros [Hn|Hs].
    + by rewrite Hn.
    + destruct (strconv.ParseInt _) as [i [err|]]; done.
  - reflexivity.
Qed.

Lemma Event_Timestamp_default_not_epoch :
  let e := {| headers := ∅; body := "" |} in
  Event_Timestamp e = time.zero
  ∧ instant.since_epoch (Event_Timestamp e) = - 62135596800000000000
  ∧ instant.since_epoch instant.epoch = 0
  ∧ Event_Timestamp e ≠ instant.epoch.
Proof. by vm_compute. Qed.

Lemma Event_Timestamp_unparsable_not_epoch :
  let e := {| headers := {[ "Event-Date-Timestamp" := "yesterday" ]};
              body := "" |} in
  Event_Timestamp e = time.zero ∧ Event_Timestamp e ≠ instant.epoch.
Proof. by vm_compute. Qed.

(** a sequence number beyond the int64 range fails to parse, and [Sequence]
    then is the bound [ParseInt] hands back with its error *)
Lemma Event_Sequence_out_of_range :
  let e := {| headers := {[ "Event-Sequence" := "9223372036854775808" ]};
              body := "" |} in
  (strconv.ParseInt (Event_Get e "Event-Sequence")).2 = Some strconv.ErrRange
  ∧ Event_Sequence e = 9223372036854775807.
Proof. by vm_compute. Qed.

Lemma Event_Sequence_Timestamp_examples :
  let e := {| headers := {[ "Event-Sequence" := "1248";
                            "Event-Date-Timestamp" := "1700000000123456" ]};
              body := "" |} in
  Event_Sequence e = 1248
  ∧ Event_Timestamp e = time.UnixMicro 1700000000123456
  ∧ instant.since_epoch (Event_Timestamp e) = 1700000000123456000.
Proof. by vm_compute. Qed.

(** ** Event names *)

Section case_folding.

Lemma ascii_N_inj a b : N_of_ascii a = N_of_ascii b → a = b.
Proof.
  intros H. rewrite <- (ascii_N_embedding a), <- (ascii_N_embedding b).
  by rewrite H.
Qed.

Lemma lower_byte_N c :
  N_of_ascii (lower_byte c)
  = (if (65 <=? N_of_ascii c) && (N_of_ascii c <=? 90)
     then N_of_ascii c + 32 else N_of_ascii c)%N.
Proof.
  unfold lower_byte, gostrings.is_upper. cbv zeta.
  pose proof (N_ascii_bounded c).
  destruct ((65 <=? N_of_ascii c)%N && (N_of_ascii c <=? 90)%N) eqn:Hu;
    [|done].
  apply andb_true_iff in Hu as [?%N.leb_le ?%N.leb_le].
  apply N_ascii_embedding. lia.
Qed.

Lemma fold_eq_ascii_lower a b :
  gostrings.fold_eq_ascii a b = true ↔ lower_byte a = lower_byte b.
Proof.
  transitivity (N_of_ascii (lower_byte a) = N_of_ascii (lower_byte b)).
  2: { split; [apply ascii_N_inj | by intros ->]. }
  rewrite !lower_byte_N. unfold gostrings.fold_eq_ascii. cbv zeta.
  destruct (Ascii.eqb_spec b a) as [->|Hne].
  { done. }
  assert (N_of_ascii a ≠ N_of_ascii b) as HneN.
  { intros ?%ascii_N_inj. by subst. }
  rewrite !andb_true_iff, !N.leb_le, N.eqb_eq.
  destruct (N.leb_spec 65 (N_of_ascii a)), (N.leb_spec (N_of_ascii a) 90),
    (N.leb_spec 65 (N_of_ascii b)), (N.leb_spec (N_of_ascii b) 90);
    simpl; lia.
Qed.

Lemma lower_byte_ascii c :
  (N_of_ascii (lower_byte c) <? 128)%N = (N_of_ascii c <? 128)%N.
Proof.
  rewrite lower_byte_N.
  destruct (N.leb_spec 65 (N_of_ascii c)), (N.leb_spec (N_of_ascii c) 90);
    simpl; try done.
  apply eq_true_iff_eq. rewrite !N.ltb_lt. lia.
Qed.

(** [EqualFold] does not tell apart two ASCII spellings of one name *)
Lemma EqualFold_lower_ascii s s' u :
  lower_ascii s = lower_ascii s' → all_ascii s' = true →
  gostrings.EqualFold s u = gostrings.EqualFold s' u.
Proof.
  revert s' u. induction s as [|a s IH]; intros [|a' s'] u Hl Ha;
    try done.
  simpl in Hl, Ha. injection Hl as Hc Hl.
  apply andb_true_iff in Ha as [Ha' Ha].
  destruct u as [|b u]; [done|]. simpl.
  rewrite Ha'. rewrite <- lower_byte_ascii, Hc, lower_byte_ascii, Ha'.
  rewrite (IH s' u Hl Ha). f_equal.
  apply eq_true_iff_eq. rewrite !fold_eq_ascii_lower. by rewrite Hc.
Qed.

Lemma EqualFold_of_lower_ascii s t :
  lower_ascii s = lower_ascii t → all_ascii t = true →
  gostrings.EqualFold s t = true.
Proof.
  intros Hl Ha. rewrite (EqualFold_lower_ascii s t t Hl Ha).
  clear s Hl. induction t as [|b t IH]; [done|].
  simpl in *. apply andb_true_iff in Ha as [-> Ha].
  rewrite (IH Ha), andb_true_r. by apply fold_eq_ascii_lower.
Qed.


End case_folding.

Section event_names.

(** what the code relies on about the entries of the table *)
Lemma eventNames_entries_facts :
  Forall (fun n =>
            n ≠ ""
            ∧ gostrings.EqualFold n "all" = false
            ∧ gostrings.EqualFold n "CUSTOM" = bool_decide (n = "CUSTOM")
            ∧ all_ascii n = true
            ∧ gobytes.HasPrefix (lower_ascii n) "custom " = false)
         eventNames_entries.
Proof. apply (bool_decide_unpack _). by vm_compute. Qed.


Lemma elem_of_eventNames n : n ∈ eventNames ↔ n ∈ eventNames_entries.
Proof. unfold eventNames. by rewrite elem_of_list_to_set. Qed.

(** membership in the table is used through this lemma, as membership in
    the list of its entries *)
Lemma elem_of_eventNames_1 n : n ∈ eventNames → n ∈ eventNames_entries.
Proof. apply elem_of_eventNames. Qed.

Lemma elem_of_eventNames_2 n : n ∈ eventNames_entries → n ∈ eventNames.
Proof. apply elem_of_eventNames. Qed.

Lemma Forall_eventNames (P : string → Prop) l :
  Forall (fun n => n ∈ eventNames ∧ P n) l →
  Forall (fun n => n ∈ eventNames_entries ∧ P n) l.
Proof.
  intros H. eapply Forall_impl; [exact H|].
  intros n [Hn ?]. split; [exact (elem_of_eventNames_1 n Hn) | done].
Qed.

Lemma eventNames_facts n :
  n ∈ eventNames_entries →
  n ≠ ""
  ∧ gostrings.EqualFold n "all" = false
  ∧ gostrings.EqualFold n "CUSTOM" = bool_decide (n = "CUSTOM")
  ∧ all_ascii n = true
  ∧ gobytes.HasPrefix (lower_ascii n) "custom " = false.
Proof.
  intros Hin.
  by apply (proj1 (Forall_forall _ _) eventNames_entries_facts).
Qed.

Lemma eqb_empty_false n : n ≠ "" → String.eqb n "" = false.
Proof. intros. by apply String.eqb_neq. Qed.

(** a name of the table other than [CUSTOM] joins the native group *)
Lemma loop_native n rest native custom isCustom :
  n ∈ eventNames_entries → n ≠ "CUSTOM" →
  buildEventNamesCmd_loop (n :: rest) native custom isCustom
  = buildEventNamesCmd_loop rest (append_name native n) custom isCustom.
Proof.
  intros Hin Hne. destruct (eventNames_facts n Hin) as (H0 & Ha & Hc & _).
  cbn [buildEventNamesCmd_loop]. unfold eventAll.
  rewrite (eqb_empty_false _ H0), Ha, Hc.
  rewrite bool_decide_eq_false_2 by done.
  by rewrite bool_decide_eq_true_2 by exact (elem_of_eventNames_2 n Hin).
Qed.

(** [CUSTOM] only raises the flag *)
Lemma loop_CUSTOM rest native custom isCustom :
  buildEventNamesCmd_loop ("CUSTOM" :: rest) native custom isCustom
  = buildEventNamesCmd_loop rest native custom true.
Proof. reflexivity. Qed.




Lemma loop_table names native isCustom :
  Forall (fun n => n ∈ eventNames_entries) names →
  buildEventNamesCmd_loop names native "" isCustom
  = Some (foldl append_name native (filter (fun n => n ≠ "CUSTOM") names),
          "", isCustom || bool_decide ("CUSTOM" ∈ names)).
Proof.
  intros Hall. revert native isCustom.
  induction Hall as [|n l Hin _ IH]; intros native isCustom.
  { simpl. by rewrite orb_false_r. }
  destruct (decide (n = "CUSTOM")) as [->|Hne].
  - rewrite loop_CUSTOM, IH, filter_cons_False by (by intros []).
    rewrite (bool_decide_eq_true_2 ("CUSTOM" ∈ "CUSTOM" :: l))
      by apply list_elem_of_here.
    by rewrite orb_true_r.
  - rewrite (loop_native _ _ _ _ _ Hin Hne), IH, filter_cons_True by done.
    simpl. do 3 f_equal. apply bool_decide_ext.
    rewrite elem_of_cons. split; [by right | by intros [<-|?]].
Qed.

Lemma len_pos s : (0 <? len s) = negb (String.eqb s "").
Proof. by destruct s. Qed.

Lemma append_name_nonempty builder n :
  builder ≠ "" → append_name builder n = builder +:+ " " +:+ n.
Proof.
  intros Hb. unfold append_name, WriteString, WriteByte.
  rewrite len_pos, (eqb_empty_false _ Hb). simpl.
  by rewrite str_app_assoc.
Qed.

Lemma app_nonempty_l s t : s ≠ "" → s +:+ t ≠ "".
Proof. by destruct s. Qed.

Lemma foldl_append_name_Join acc l :
  acc ≠ "" →
  foldl append_name acc l = gostrings.Join (acc :: l) " ".
Proof.
  revert acc. induction l as [|x l IH]; intros acc Hacc; [done|].
  simpl foldl. rewrite append_name_nonempty by done.
  rewrite IH by by apply app_nonempty_l.
  destruct l as [|y l]; simpl; [done|].
  by rewrite !str_app_assoc.
Qed.

Lemma foldl_append_name_Join_nil l :
  Forall (fun n => n ≠ "") l →
  foldl append_name "" l = gostrings.Join l " ".
Proof.
  destruct 1 as [|x l Hx _]; [done|].
  simpl foldl. by apply foldl_append_name_Join.
Qed.

Lemma Join_nonempty l :
  l ≠ [] → Forall (fun n => n ≠ "") l → gostrings.Join l " " ≠ "".
Proof.
  intros Hne Hall. destruct Hall as [|x l Hx _]; [done|].
  destruct l; simpl; [done|]. by apply app_nonempty_l.
Qed.

End event_names.

Section event_names_results.

Lemma len_zero s : (len s =? 0) = String.eqb s "".
Proof. by destruct s. Qed.


Lemma append_name_not_empty builder n : n ≠ "" → append_name builder n ≠ "".
Proof.
  intros Hn. unfold append_name, WriteString, WriteByte.
  destruct builder; simpl; done.
Qed.

(** the part of [buildEventNamesCmd] after its loop *)
Lemma buildEventNamesCmd_after_loop first rest native custom isCustom :
  first ≠ "" → gostrings.EqualFold first "all" = false →
  buildEventNamesCmd_loop (first :: rest) "" "" false
  = Some (native, custom, isCustom) →
  buildEventNamesCmd (first :: rest)
  = let native :=
      if isCustom || (0 <? len custom) then
        let native := append_name native "CUSTOM" in
        if 0 <? len custom then append_name native custom else native
      else native in
    if len native =? 0 then eventAll else native.
Proof.
  intros H0 Ha Hloop. unfold buildEventNamesCmd, eventAll in *.
  rewrite (eqb_empty_false _ H0), Ha, Hloop. simpl orb. cbv iota zeta.
  destruct (isCustom || (0 <? len custom)); [|done].
  destruct (0 <? len custom); [|done].
  rewrite (append_name_nonempty (append_name native "CUSTOM"))
    by by apply append_name_not_empty.
  unfold WriteString, WriteByte. by rewrite str_app_assoc.
Qed.


Lemma buildEventNamesCmd_table names :
  names ≠ [] → Forall (fun n => n ∈ eventNames_entries) names →
  buildEventNamesCmd names
  = gostrings.Join (natives_then_CUSTOM names) " ".
Proof.
  intros Hne Hall. destruct names as [|first rest]; [done|].
  pose proof (Forall_inv Hall) as Hfirst.
  destruct (eventNames_facts first Hfirst) as (H0 & Ha & _).
  rewrite (buildEventNamesCmd_after_loop _ _ _ _ _ H0 Ha
             (loop_table _ _ _ Hall)).
  cbv zeta. simpl orb. rewrite orb_false_r.
  unfold natives_then_CUSTOM.
  set (nat := filter (fun n => n ≠ "CUSTOM") (first :: rest)).
  assert (Forall (fun n => n ≠ "") nat) as Hnat.
  { apply Forall_forall. intros n [_ Hin]%list_elem_of_filter.
    apply eventNames_facts. by apply (proj1 (Forall_forall _ _) Hall). }
  change (0 <? len "") with false. cbv iota.
  destruct (bool_decide ("CUSTOM" ∈ first :: rest)) eqn:Hc.
  - rewrite len_zero, eqb_empty_false
      by by apply append_name_not_empty.
    rewrite <- foldl_append_name_Join_nil.
    + by rewrite foldl_app.
    + apply Forall_app. split; [done | by repeat constructor].
  - rewrite app_nil_r, foldl_append_name_Join_nil by done.
    rewrite len_zero, eqb_empty_false; [done|].
    apply Join_nonempty; [|done].
    apply bool_decide_eq_false_1 in Hc. subst nat.
    destruct (decide (first = "CUSTOM")) as [->|Hf].
    + destruct Hc. apply list_elem_of_here.
    + by rewrite filter_cons_True.
Qed.

Lemma natives_then_CUSTOM_without names :
  Forall (fun n => n ∈ eventNames_entries ∧ n ≠ "CUSTOM") names →
  natives_then_CUSTOM names = names.
Proof.
  intros Hall. unfold natives_then_CUSTOM.
  rewrite bool_decide_eq_false_2, app_nil_r.
  - induction Hall as [|n l [_ Hn] _ IH]; [done|].
    by rewrite filter_cons_True, IH.
  - intros Hin. by apply (proj1 (Forall_forall _ _) Hall) in Hin as [_ ?].
Qed.

End event_names_results.

(** a closed name is looked up in the table by evaluation *)
Ltac in_table :=
  apply elem_of_eventNames_2, (bool_decide_unpack _); vm_compute; exact I.

(** C4, as the code has it.  [buildEventNamesCmd] returns [all] for no
    arguments and for a first argument that spells [all] in any letter case,
    and the two strings of the examples; for a list of names of the native
    table it returns, joined by spaces, the names other than [CUSTOM] in
    their input order and then the token [CUSTOM] when it was in the list --
    so the input order is kept when the list has no [CUSTOM]. *)
Theorem buildEventNamesCmd_results :
  buildEventNamesCmd [] = "all"
  ∧ (∀ first rest, lower_ascii first = "all" →
       buildEventNamesCmd (first :: rest) = "all")
  ∧ buildEventNamesCmd ["CUSTOM"; "conference::maintenance"]
    = "CUSTOM conference::maintenance"
  ∧ buildEventNamesCmd ["CHANNEL_CREATE"; "CUSTOM"; "sofia::register"]
    = "CHANNEL_CREATE CUSTOM sofia::register"
  ∧ (∀ names, names ≠ [] → Forall (fun n => n ∈ eventNames) names →
       buildEventNamesCmd names
       = gostrings.Join (natives_then_CUSTOM names) " ")
  ∧ (∀ names, names ≠ [] →
       Forall (fun n => n ∈ eventNames ∧ n ≠ "CUSTOM") names →
       buildEventNamesCmd names = gostrings.Join names " ").
Proof.
  split_and!.
  - reflexivity.
  - intros first rest Hl. unfold buildEventNamesCmd.
    rewrite (EqualFold_of_lower_ascii first eventAll) by done.
    by rewrite orb_true_r.
  - by vm_compute.
  - by vm_compute.
  - intros names Hne Hall. apply buildEventNamesCmd_table; [done|].
    eapply Forall_impl; [exact Hall|]. exact elem_of_eventNames_1.
  - intros names Hne Hall%Forall_eventNames.
    rewrite buildEventNamesCmd_table; [|done|].
    + by rewrite natives_then_CUSTOM_without.
    + eapply Forall_impl; [exact Hall | by intros n []].
Qed.

(** the names of the table do not all keep their place: [CUSTOM] goes last *)
Lemma buildEventNamesCmd_CUSTOM_moves_last :
  Forall (fun n => n ∈ eventNames) ["CUSTOM"; "CHANNEL_CREATE"]
  ∧ buildEventNamesCmd ["CUSTOM"; "CHANNEL_CREATE"] = "CHANNEL_CREATE CUSTOM"
  ∧ gostrings.Join ["CUSTOM"; "CHANNEL_CREATE"] " " = "CUSTOM CHANNEL_CREATE"
  ∧ buildEventNamesCmd ["CUSTOM"; "CHANNEL_CREATE"]
    ≠ gostrings.Join ["CUSTOM"; "CHANNEL_CREATE"] " ".
Proof.
  split_and!; [|by vm_compute..].
  constructor; [in_table|]. constructor; [in_table | constructor].
Qed.

Lemma buildEventNamesCmd_all_examples :
  buildEventNamesCmd ["all"] = "all" ∧ buildEventNamesCmd ["ALL"] = "all"
  ∧ buildEventNamesCmd ["aLl"] = "all"
  ∧ buildEventNamesCmd ["All"; "CHANNEL_CREATE"] = "all"
  ∧ buildEventNamesCmd ["CHANNEL_CREATE"; "CHANNEL_DESTROY"; "DTMF"]
    = "CHANNEL_CREATE CHANNEL_DESTROY DTMF"
  ∧ buildEventNamesCmd ["DTMF"; "CHANNEL_DESTROY"; "CHANNEL_CREATE"]
    = "DTMF CHANNEL_DESTROY CHANNEL_CREATE".
Proof. by vm_compute. Qed.



Lemma buildEventNamesCmd_case_examples :
  buildEventNamesCmd ["channel_create"] = "CUSTOM channel_create"
  ∧ buildEventNamesCmd ["Channel_Create"; "DTMF"]
    = "DTMF CUSTOM Channel_Create"
  ∧ buildEventNamesCmd ["custom"; "DTMF"] = "DTMF CUSTOM"
  ∧ buildEventNamesCmd ["dtmf"; "all"] = "all".
Proof. by vm_compute. Qed.

(** ** Bodies of a declared length *)

Section bodies.

Lemma len_nonneg s : 0 <= len s.
Proof. unfold len. lia. Qed.



Lemma slice_to_all s n : len s <= n → slice_to s n = s.
Proof. unfold len, slice_to. intros Hn. apply str_take_all. lia. Qed.

End bodies.


Lemma body_of_declared_length_examples :
  let nl := String LF "" in
  let peer s := {| conn_r := s; conn_w := ""; conn_wfail := None;
                   conn_log := [] |} in
  let frame := "Content-Type: api/response" +:+ nl
               +:+ "Content-Length: 5" +:+ nl +:+ nl in
  let returned o :=
    match o with
    | Return ((r, e), c) => Some (resp_body r, e, conn_r c)
    | Panic _ => None
    end in
  let parsed o :=
    match o with
    | Return (ev, e) => Some (body ev, e)
    | Panic _ => None
    end in
  returned (conn_Read (peer (frame +:+ "+OK 1Content-Type")))
  = Some ("+OK 1", None, "Content-Type")
  ∧ returned (conn_Read (peer (frame +:+ "+OK")))
    = Some ("+OK" +:+ str_repeat "000" 2,
            Some (Errorf_w "failed to read body" io_ErrUnexpectedEOF), "")
  ∧ parsed (parseEvent ("Event-Name: API" +:+ nl +:+ "Content-Length: 5"
                        +:+ nl +:+ nl +:+ "+OK 1junk"))
    = Some ("+OK 1", None)
  ∧ parsed (parseEvent ("Event-Name: API" +:+ nl +:+ "Content-Length: 5"
                        +:+ nl +:+ nl +:+ "+OK"))
    = Some ("+OK" +:+ str_repeat "000" 2,
            Some (Errorf_w "failed to read body" io_ErrUnexpectedEOF))
  ∧ parsed (parseEvent ("Event-Name: API" +:+ nl +:+ "Content-Length: 5"
                        +:+ nl +:+ nl))
    = Some (str_repeat "000" 5,
            Some (Errorf_w "failed to read body" io_ErrUnexpectedEOF)).
Proof. by vm_compute. Qed.


(** a content length beyond the int range: [parseEvent] drops the range
    error, keeps the bound handed back with it and panics in [make];
    [conn.Read] reports the header as malformed *)
Lemma content_length_out_of_range :
  let nl := String LF "" in
  let c := {| conn_r := "Content-Type: api/response" +:+ nl
                        +:+ "Content-Length: 99999999999999999999" +:+ nl
                        +:+ nl +:+ "+OK";
              conn_w := ""; conn_wfail := None; conn_log := [] |} in
  parseEvent ("Content-Length: 99999999999999999999" +:+ nl +:+ nl +:+ "+OK")
  = Panic "makeslice: len out of range"
  ∧ (∃ r c', conn_Read c
             = Return ((r, Some (MalformedContentLength
                                   "99999999999999999999")), c')).
Proof. split; [by vm_compute | by do 2 eexists; vm_compute]. Qed.

(** ** Events as JSON *)

Section event_json.

Lemma foldl_insert_lookup (f : string → string) ks
    (m0 : gmap string string) k :
  foldl (fun m k => <[k := f k]> m) m0 ks !! k
  = if decide (k ∈ ks) then Some (f k) else m0 !! k.
Proof.
  revert m0. induction ks as [|x ks IH]; intros m0; cbn [foldl].
  { destruct (decide (k ∈ [])) as [?%elem_of_nil|]; done. }
  rewrite IH.
  destruct (decide (k ∈ ks)) as [Hin|Hni],
           (decide (k ∈ x :: ks)) as [Hin'|Hni']; try done.
  - destruct Hni'. by right.
  - apply elem_of_cons in Hin' as [->|?]; [|done].
    by rewrite lookup_insert_eq.
  - rewrite lookup_insert_ne; [done|]. intros ->. destruct Hni'. by left.
Qed.




End event_json.




(** ** Events on the wire *)

Section index_byte.

Lemma IndexByte_bounds s c : -1 <= gobytes.IndexByte s c < len s.
Proof.
  unfold len. induction s as [|a s IH]; simpl; [lia|].
  destruct (Ascii.eqb a c); [lia|].
  destruct (Z.ltb_spec (gobytes.IndexByte s c) 0); lia.
Qed.

Lemma IndexByte_app_found s t c :
  gobytes.IndexByte s c = -1 →
  gobytes.IndexByte (s +:+ String c t) c = len s.
Proof.
  unfold len. induction s as [|a s IH]; rewrite ?str_app_cons; simpl.
  { by rewrite Ascii.eqb_refl. }
  destruct (Ascii.eqb a c); [done|].
  destruct (Z.ltb_spec (gobytes.IndexByte s c) 0) as [Hlt|Hge].
  - intros _. rewrite IH.
    + destruct (Z.ltb_spec (Z.of_nat (String.length s)) 0); lia.
    + pose proof (IndexByte_bounds s c). lia.
  - lia.
Qed.

Lemma IndexByte_app_absent s t c :
  gobytes.IndexByte s c = -1 → gobytes.IndexByte t c = -1 →
  gobytes.IndexByte (s +:+ t) c = -1.
Proof.
  intros Hs Ht. induction s as [|a s IH]; rewrite ?str_app_cons; [done|].
  simpl in *. destruct (Ascii.eqb a c); [done|].
  destruct (Z.ltb_spec (gobytes.IndexByte s c) 0) as [Hlt|Hge].
  - rewrite IH; [done|]. pose proof (IndexByte_bounds s c). lia.
  - lia.
Qed.

Lemma slice_to_app s t : slice_to (s +:+ t) (len s) = s.
Proof.
  unfold slice_to, len. rewrite Nat2Z.id. apply str_take_app.
Qed.

Lemma slice_from_app s t : slice_from (s +:+ t) (len s) = t.
Proof.
  unfold slice_from, len. rewrite Nat2Z.id. apply str_drop_app.
Qed.

Lemma slice_from_app_cons s a t :
  slice_from (s +:+ String a t) (len s + 1) = t.
Proof.
  unfold slice_from, len.
  replace (Z.to_nat (Z.of_nat (String.length s) + 1))
    with (String.length (s +:+ String a "")).
  - rewrite <- (str_drop_app (s +:+ String a "") t) at 2.
    by rewrite str_app_assoc.
  - rewrite str_length_app. simpl. lia.
Qed.

Lemma len_app s t : len (s +:+ t) = len s + len t.
Proof. unfold len. rewrite str_length_app. lia. Qed.

Lemma len_cons a s : len (String a s) = 1 + len s.
Proof. unfold len. simpl. lia. Qed.

Lemma replace_newlines_id v :
  gobytes.IndexByte v LF = -1 → gostrings.replace_newlines v = v.
Proof.
  induction v as [|a v IH]; [done|]. simpl.
  destruct (Ascii.eqb a LF) eqn:Ha; [done|].
  destruct (Z.ltb_spec (gobytes.IndexByte v LF) 0) as [Hlt|Hge]; [|lia].
  intros _. pose proof (IndexByte_bounds v LF).
  assert (gobytes.IndexByte v LF = -1) as Hv by lia.
  destruct v as [|b v]; [done|].
  assert (Ascii.eqb b LF = false) as Hb.
  { simpl in Hv. by destruct (Ascii.eqb b LF). }
  rewrite Hb, andb_false_r. f_equal. by apply IH.
Qed.

End index_byte.

Section decimal.

Lemma digit_spec d :
  0 <= d < 10 →
  strconv.is_digit (strconv.digit d) = true
  ∧ Z.of_N (N_of_ascii (strconv.digit d)) - 48 = d.
Proof.
  intros Hd. unfold strconv.is_digit, strconv.digit. cbv zeta.
  rewrite N_ascii_embedding by lia.
  split; [|lia].
  apply andb_true_iff. split; apply N.leb_le; lia.
Qed.

Lemma format_loop_digits fuel n acc :
  0 <= n → all_digits acc = true →
  all_digits (strconv.format_loop fuel n acc) = true.
Proof.
  revert n acc. induction fuel as [|fuel IH]; intros n acc Hn Hacc; [done|].
  simpl.
  assert (all_digits (String (strconv.digit (n mod 10)) acc) = true) as Hd.
  { simpl. rewrite Hacc, andb_true_r.
    apply digit_spec. apply Z.mod_pos_bound. lia. }
  destruct (n / 10 =? 0); [done|].
  apply IH; [|done]. apply Z.div_pos; lia.
Qed.

Lemma format_loop_nonempty fuel n acc :
  acc ≠ "" → strconv.format_loop fuel n acc ≠ "".
Proof.
  revert n acc. induction fuel as [|fuel IH]; intros n acc Hacc; [done|].
  simpl. destruct (n / 10 =? 0); [done|]. by apply IH.
Qed.

Lemma format_loop_S_nonempty fuel n acc :
  strconv.format_loop (S fuel) n acc ≠ "".
Proof.
  cbn [strconv.format_loop]. destruct (n / 10 =? 0); [done|].
  by apply format_loop_nonempty.
Qed.

(** reading back what [format_loop] wrote gives the number *)
Lemma ParseUint_loop_format fuel n acc :
  0 <= n < 10 ^ Z.of_nat fuel → n < 2 ^ 64 →
  strconv.ParseUint_loop (strconv.format_loop fuel n acc) 0
  = strconv.ParseUint_loop acc n.
Proof.
  revert n acc. induction fuel as [|fuel IH]; intros n acc Hn H64.
  { simpl in *. by replace n with 0 by lia. }
  cbn [strconv.format_loop].
  assert (0 <= n mod 10 < 10) as Hm by (apply Z.mod_pos_bound; lia).
  destruct (digit_spec (n mod 10) Hm) as [Hd Hv].
  pose proof (Z.div_mod n 10 ltac:(lia)) as Hdm.
  assert (∀ k, k = n / 10 → k < 1844674407370955162 →
            strconv.ParseUint_loop
              (String (strconv.digit (n mod 10)) acc) k
            = strconv.ParseUint_loop acc n) as Hstep.
  { intros k -> Hk. cbn [strconv.ParseUint_loop].
    rewrite Hd, Hv. cbn [negb].
    change (strconv.maxUint64 / 10 + 1) with 1844674407370955162.
    change strconv.maxUint64 with 18446744073709551615.
    change (2 ^ 64) with 18446744073709551616 in *.
    destruct (Z.geb_spec (n / 10) 1844674407370955162); [lia|].
    replace (n / 10 * 10 + n mod 10) with n by lia.
    rewrite Z.mod_small by lia.
    destruct (Z.ltb_spec n (n / 10 * 10)); [lia|].
    destruct (Z.gtb_spec n 18446744073709551615); [lia|]. done. }
  change (2 ^ 64) with 18446744073709551616 in H64.
  destruct (Z.eqb_spec (n / 10) 0) as [H0|H0].
  - apply Hstep; lia.
  - rewrite IH.
    + apply Hstep; [done|]. lia.
    + rewrite Nat2Z.inj_succ, Z.pow_succ_r in Hn by lia.
      split; [apply Z.div_pos; lia|].
      apply Z.div_lt_upper_bound; lia.
    + change (2 ^ 64) with 18446744073709551616. lia.
Qed.

Lemma Atoi_Itoa n :
  0 <= n < 2 ^ 63 → strconv.Atoi (strconv.Itoa n) = (n, None).
Proof.
  intros Hn. unfold strconv.Atoi, strconv.Itoa.
  destruct (Z.ltb_spec n 0); [lia|].
  change (2 ^ 63) with 9223372036854775808 in *.
  pose proof (format_loop_digits 20 n "" ltac:(lia) eq_refl) as Hd.
  pose proof (ParseUint_loop_format 20 n "") as Hp.
  assert (strconv.format_loop 20 n "" ≠ "") as Hne.
  { apply (format_loop_S_nonempty 19). }
  destruct (strconv.format_loop 20 n "") as [|c s] eqn:Hf; [done|].
  simpl in Hd. apply andb_true_iff in Hd as [Hc _].
  unfold strconv.ParseInt.
  assert (Ascii.eqb c "+" = false ∧ Ascii.eqb c "-" = false) as [-> ->].
  { split; destruct (Ascii.eqb_spec c "+"), (Ascii.eqb_spec c "-");
      subst; try done; by vm_compute in Hc. }
  cbn [orb]. unfold strconv.ParseUint. rewrite Hp.
  - cbn [strconv.ParseUint_loop negb andb].
    change (2 ^ 63) with 9223372036854775808.
    destruct (Z.geb_spec n 9223372036854775808); [lia|]. done.
  - change (10 ^ Z.of_nat 20) with 100000000000000000000. lia.
  - change (2 ^ 64) with 18446744073709551616. lia.
Qed.

Lemma digit_not_special c :
  strconv.is_digit c = true →
  Ascii.eqb c LF = false ∧ Ascii.eqb c " " = false
  ∧ Ascii.eqb c TAB = false ∧ Ascii.eqb c "%" = false.
Proof.
  intros Hc.
  split_and!;
    match goal with
    | |- Ascii.eqb c ?x = false =>
        destruct (Ascii.eqb_spec c x) as [->|]; [by vm_compute in Hc|done]
    end.
Qed.

Lemma digits_wire_safe s :
  all_digits s = true →
  gobytes.IndexByte s LF = -1 ∧ trimLeft s = s
  ∧ url.PathUnescape s = Some s.
Proof.
  intros Hs.
  assert (gobytes.IndexByte s LF = -1 ∧ url.well_formed s = true
          ∧ url.decode s = s) as (Hi & Hw & Hd).
  { induction s as [|c s IH]; [done|]. simpl in Hs.
    apply andb_true_iff in Hs as [Hc Hs].
    destruct (digit_not_special c Hc) as (H1 & H2 & H3 & H4).
    destruct (IH Hs) as (Hi & Hw & Hd). simpl.
    rewrite H1, H4, Hi, Hw, Hd. done. }
  split_and!; [done| |].
  - destruct s as [|c s]; [done|]. simpl in Hs |- *.
    apply andb_true_iff in Hs as [Hc _].
    destruct (digit_not_special c Hc) as (_ & -> & -> & _). done.
  - unfold url.PathUnescape. by rewrite Hw, Hd.
Qed.

End decimal.

Section event_wire.

Lemma nonempty_len_pos s : s ≠ "" → 0 < len s.
Proof. destruct s; [done|]. rewrite len_cons. pose proof (len_nonneg s). lia. Qed.

(** one round of the header loop on a well-formed header line *)
Lemma parseEvent_loop_header fuel h k raw rest :
  wire_safe_key k → gobytes.IndexByte raw LF = -1 →
  parseEvent_loop (S fuel) h (k +:+ ": " +:+ raw +:+ String LF rest)
  = parseEvent_loop fuel
      (<[k := match url.PathUnescape (trimLeft raw) with
              | Some v => v
              | None => trimLeft raw
              end]> h)
      rest.
Proof.
  intros (Hk0 & Hkc & Hkl) Hraw.
  set (line := k +:+ ": " +:+ raw).
  assert (k +:+ ": " +:+ raw +:+ String LF rest = line +:+ String LF rest)
    as -> by (subst line; by rewrite !str_app_assoc).
  assert (gobytes.IndexByte line LF = -1) as Hline.
  { subst line. apply IndexByte_app_absent; [done|].
    by apply IndexByte_app_absent. }
  pose proof (nonempty_len_pos k Hk0) as Hlk.
  pose proof (len_nonneg raw) as Hlr.
  assert (len line = len k + 2 + len raw) as Hll.
  { subst line. rewrite !len_app. change (len ": ") with 2. lia. }
  cbn [parseEvent_loop].
  assert ((0 <? len (line +:+ String LF rest)) = true) as ->.
  { apply Z.ltb_lt. rewrite len_app, len_cons.
    pose proof (len_nonneg rest). lia. }
  cbn [negb]. rewrite (IndexByte_app_found line rest LF Hline).
  assert ((0 <=? len line) = true) as -> by (apply Z.leb_le; lia).
  rewrite slice_to_app, slice_from_app_cons.
  assert ((len line =? 0) = false) as -> by (apply Z.eqb_neq; lia).
  assert ((len line =? 1) = false) as -> by (apply Z.eqb_neq; lia).
  cbn [orb andb].
  assert (gobytes.IndexByte line ":" = len k) as Hidx.
  { subst line. change (": " +:+ raw) with (String ":" (" " +:+ raw)).
    by apply IndexByte_app_found. }
  rewrite Hidx.
  assert ((len k <=? 0) = false) as -> by (apply Z.leb_gt; lia).
  subst line. rewrite slice_to_app.
  change (": " +:+ raw) with (String ":" (String " " raw)).
  rewrite slice_from_app_cons. reflexivity.
Qed.

Lemma parseEvent_loop_blank fuel h rest :
  parseEvent_loop (S fuel) h (String LF rest) = (h, inl rest).
Proof.
  cbn [parseEvent_loop].
  assert ((0 <? len (String LF rest)) = true) as ->.
  { apply Z.ltb_lt. rewrite len_cons. pose proof (len_nonneg rest). lia. }
  reflexivity.
Qed.

Lemma parseEvent_loop_end fuel h : parseEvent_loop fuel h "" = (h, inl "").
Proof. by destruct fuel. Qed.

(** the header loop on the lines [Event.WriteTo] writes *)
Lemma parseEvent_loop_lines m keys h fuel tail :
  Forall (fun k => wire_safe_key k ∧ wire_safe_value (map_get m k)) keys →
  (String.length (event_lines m keys +:+ tail) <= fuel)%nat →
  ∃ fuel',
    (String.length tail <= fuel')%nat
    ∧ parseEvent_loop fuel h (event_lines m keys +:+ tail)
      = parseEvent_loop fuel'
          (foldl (fun h k => <[k := map_get m k]> h) h keys) tail.
Proof.
  intros Hall. revert h fuel.
  induction Hall as [|k keys [Hk (Hv1 & Hv2 & Hv3)] _ IH]; intros h fuel Hf.
  { by exists fuel. }
  cbn [event_lines foldl] in *. unfold skipNewLines in *.
  rewrite (replace_newlines_id _ Hv1) in *.
  assert ((k +:+ ": " +:+ map_get m k
             +:+ String LF (event_lines m keys)) +:+ tail
          = k +:+ ": " +:+ map_get m k
              +:+ String LF (event_lines m keys +:+ tail)) as Heq
    by (by rewrite !str_app_assoc).
  rewrite Heq in *.
  rewrite !str_length_app in Hf. cbn [String.length] in Hf.
  destruct fuel as [|fuel]; [lia|].
  rewrite (parseEvent_loop_header fuel h k _ _ Hk Hv1).
  rewrite Hv2.
  assert (match url.PathUnescape (map_get m k) with
          | Some v => v
          | None => map_get m k
          end = map_get m k) as ->.
  { by destruct Hv3 as [-> | ->]. }
  apply IH. lia.
Qed.

Lemma Itoa_digits n : 0 <= n → all_digits (strconv.Itoa n) = true.
Proof.
  intros Hn. unfold strconv.Itoa. destruct (Z.ltb_spec n 0); [lia|].
  by apply format_loop_digits.
Qed.

(** the header loop on the content-length line, the blank line and the
    body that [Event.WriteTo] writes last *)
Lemma parseEvent_loop_body fuel h n body :
  0 <= n →
  (String.length ("Content-Length: " +:+ strconv.Itoa n
                  +:+ String LF (String LF body)) <= fuel)%nat →
  parseEvent_loop fuel h ("Content-Length: " +:+ strconv.Itoa n
                          +:+ String LF (String LF body))
  = (<["Content-Length" := strconv.Itoa n]> h, inl body).
Proof.
  intros Hn Hf.
  destruct (digits_wire_safe _ (Itoa_digits n Hn)) as (Hi & Ht & Hp).
  rewrite !str_length_app in Hf. cbn [String.length] in Hf.
  destruct fuel as [|[|fuel]]; [simpl in Hf; lia..|].
  change ("Content-Length: " +:+ strconv.Itoa n
          +:+ String LF (String LF body))
    with ("Content-Length" +:+ ": " +:+ strconv.Itoa n
          +:+ String LF (String LF body)).
  rewrite parseEvent_loop_header; [|by vm_compute|done].
  rewrite Ht, Hp. apply parseEvent_loop_blank.
Qed.

Lemma range_filter acc range :
  foldl (fun keys k =>
           if gostrings.EqualFold k "Content-Length" then keys
           else keys ++ [k]) acc range
  = acc ++ filter (fun k => gostrings.EqualFold k "Content-Length" = false)
                  range.
Proof.
  revert acc. induction range as [|k range IH]; intros acc; simpl.
  { by rewrite app_nil_r. }
  rewrite IH. destruct (gostrings.EqualFold k "Content-Length") eqn:Hk.
  - by rewrite filter_cons_False by by rewrite Hk.
  - rewrite filter_cons_True by done. by rewrite <- app_assoc.
Qed.

Lemma write_event_lines m keys buf :
  foldl (fun buf k =>
           WriteByte
             (WriteString (WriteString (WriteString buf k) ": ")
                          (skipNewLines (map_get m k)))
             LF) buf keys
  = buf +:+ event_lines m keys.
Proof.
  revert buf; induction keys as [|k keys IH]; intros buf; simpl.
  - by rewrite str_app_nil_r.
  - rewrite IH. unfold WriteString, WriteByte.
    rewrite !str_app_assoc. reflexivity.
Qed.

Lemma Event_WriteTo_layout range e :
  Event_WriteTo range e
  = event_lines (headers e)
      (slices.Sort
         (filter (fun k => gostrings.EqualFold k "Content-Length" = false)
                 range))
    +:+ (if 0 <? len (body e)
         then "Content-Length: " +:+ strconv.Itoa (len (body e))
              +:+ String LF (String LF (body e))
         else "").
Proof.
  unfold Event_WriteTo. rewrite range_filter, write_event_lines.
  cbn [app]. rewrite str_app_nil_l.
  destruct (0 <? len (body e)); [|by rewrite str_app_nil_r].
  unfold WriteString. by rewrite !str_app_assoc.
Qed.

End event_wire.

(** C1, as the code has it.  For an Event whose headers -- those that are
    written, that is all but a [Content-Length] in any letter case -- have a
    key that is not empty and holds no colon or newline and a value that
    holds no newline, does not start with a space or a tab and is left alone
    by percent-decoding: writing the Event and parsing the bytes gives the
    body back, and a header map that agrees with the original on every key
    other than [Content-Length], holds the decimal body length under
    [Content-Length] when there is a body, and no other spelling of that
    key. *)
Theorem Event_wire_round_trip (e : Event) (range : list string) :
  range_keys (headers e) range →
  map_Forall (fun k v => gostrings.EqualFold k "Content-Length" = false →
                         wire_safe_key k ∧ wire_safe_value v) (headers e) →
  len (body e) <= maxAlloc →
  ∃ h',
    parseEvent (Event_WriteTo range e)
    = Return ({| headers := h'; body := body e |}, None)
    ∧ (∀ k, gostrings.EqualFold k "Content-Length" = false →
            h' !! k = headers e !! k)
    ∧ h' !! "Content-Length"
      = (if 0 <? len (body e) then Some (strconv.Itoa (len (body e)))
         else None)
    ∧ (∀ k, gostrings.EqualFold k "Content-Length" = true →
            k ≠ "Content-Length" → h' !! k = None).
Proof.
  intros Hrange Hsafe Hmax. destruct e as [m b]. cbn [headers body] in *.
  rewrite Event_WriteTo_layout. cbn [headers body].
  set (P := fun k => gostrings.EqualFold k "Content-Length" = false).
  set (keys := slices.Sort (filter P range)).
  assert (∀ k, k ∈ keys ↔ P k ∧ is_Some (m !! k)) as Hkeys.
  { intros k. subst keys. rewrite Sort_perm, list_elem_of_filter.
    unfold range_keys in Hrange. rewrite Hrange, list_elem_of_fmap.
    split.
    - intros [HP ([k' v] & -> & Hin)]. split; [done|].
      exists v. by apply elem_of_map_to_list.
    - intros [HP [v Hv]]. split; [done|]. exists (k, v).
      split; [done|]. by apply elem_of_map_to_list. }
  assert (Forall (fun k => wire_safe_key k ∧ wire_safe_value (map_get m k))
                 keys) as Hall.
  { apply Forall_forall. intros k [HP [v Hv]]%Hkeys.
    unfold map_get. rewrite Hv. by apply (Hsafe k v). }
  set (hk := foldl (fun h k => <[k := map_get m k]> h) (∅ : gmap _ _) keys).
  assert (∀ k, hk !! k = if decide (k ∈ keys) then m !! k else None) as Hhk.
  { intros k. subst hk. rewrite foldl_insert_lookup, lookup_empty.
    destruct (decide (k ∈ keys)) as [[_ [v Hv]]%Hkeys|]; [|done].
    unfold map_get. by rewrite Hv. }
  assert (∀ k, P k → hk !! k = m !! k) as HhkP.
  { intros k HP. rewrite Hhk.
    destruct (decide (k ∈ keys)) as [|Hni]; [done|].
    destruct (m !! k) eqn:Hk; [|done].
    destruct Hni. apply Hkeys. by eauto. }
  assert (∀ k, ¬ P k → hk !! k = None) as HhkN.
  { intros k HP. rewrite Hhk.
    destruct (decide (k ∈ keys)) as [[? _]%Hkeys|]; done. }
  assert (¬ P "Content-Length") as HCL by (by vm_compute).
  pose proof (len_nonneg b) as Hb0.
  unfold parseEvent.
  set (tail := if 0 <? len b
               then "Content-Length: " +:+ strconv.Itoa (len b)
                    +:+ String LF (String LF b)
               else "").
  destruct (parseEvent_loop_lines m keys ∅ _ tail Hall (Nat.le_refl _))
    as (fuel' & Hfuel & ->).
  fold hk. subst tail. destruct (Z.ltb_spec 0 (len b)) as [Hpos|Hzero].
  - exists (<["Content-Length" := strconv.Itoa (len b)]> hk).
    rewrite parseEvent_loop_body by (done || lia).
    assert (map_get (<["Content-Length" := strconv.Itoa (len b)]> hk)
                    "Content-Length" = strconv.Itoa (len b)) as ->
      by (unfold map_get; by rewrite lookup_insert_eq).
    rewrite Atoi_Itoa.
    2: { change maxAlloc with 281474976710656 in Hmax.
         change (2 ^ 63) with 9223372036854775808. lia. }
    cbn [fst].
    assert ((0 <? len b) = true) as -> by by apply Z.ltb_lt.
    assert ((maxAlloc <? len b) = false) as -> by by apply Z.ltb_ge.
    rewrite Z.min_id, Z.eqb_refl, Z.sub_diag, slice_to_all by lia.
    cbn [negb Z.to_nat str_repeat]. rewrite str_app_nil_r.
    split_and!; [done| | |].
    + intros k HP. rewrite lookup_insert_ne; [by apply HhkP|].
      intros <-. by destruct HCL.
    + by rewrite lookup_insert_eq.
    + intros k Hk Hne. rewrite lookup_insert_ne by done.
      apply HhkN. unfold P. by rewrite Hk.
  - exists hk. rewrite parseEvent_loop_end.
    unfold map_get. rewrite (HhkN _ HCL). cbn [default].
    change (strconv.Atoi "").1 with 0. cbn [Z.ltb Z.compare].
    assert (b = "") as ->.
    { destruct b as [|a b']; [done|]. rewrite len_cons in Hzero.
      pose proof (len_nonneg b'). lia. }
    split_and!; [done| | |].
    + by apply HhkP.
    + by rewrite ?(HhkN _ HCL).
    + intros k Hk _. apply HhkN. unfold P. by rewrite Hk.
Qed.

Lemma Event_wire_round_trip_witness :
  let e := {| headers := <["Event-Name" := "HEARTBEAT"]>
                           (<["content-length" := "7"]> ∅);
              body := "up 1 day" |} in
  ∃ h',
    parseEvent (Event_WriteTo (map_to_list (headers e)).*1 e)
    = Return ({| headers := h'; body := body e |}, None)
    ∧ (∀ k, gostrings.EqualFold k "Content-Length" = false →
            h' !! k = headers e !! k)
    ∧ h' !! "Content-Length"
      = (if 0 <? len (body e) then Some (strconv.Itoa (len (body e)))
         else None)
    ∧ (∀ k, gostrings.EqualFold k "Content-Length" = true →
            k ≠ "Content-Length" → h' !! k = None).
Proof.
  apply Event_wire_round_trip.
  - unfold range_keys. reflexivity.
  - apply map_Forall_insert_2.
    + intros _. split; [split_and!; [discriminate | reflexivity..]|].
      split_and!; [reflexivity | reflexivity | right; reflexivity].
    + apply map_Forall_insert_2; [discriminate | apply map_Forall_empty].
  - discriminate.
Defined.

(** what a header line does not carry: a percent escape is decoded, a line
    break becomes a space, leading blanks go, a colon ends the key *)
Lemma Event_wire_values_changed :
  let parsed range e :=
    match parseEvent (Event_WriteTo range e) with
    | Return (e', None) => Some (map_to_list (headers e'), body e')
    | _ => None
    end in
  parsed ["a"] {| headers := {[ "a" := "%41" ]}; body := "" |}
  = Some ([("a", "A")], "")
  ∧ parsed ["a"] {| headers := {[ "a" := String "x" (String LF "y") ]};
                    body := "" |}
    = Some ([("a", "x y")], "")
  ∧ parsed ["a"] {| headers := {[ "a" := "  indented" ]}; body := "" |}
    = Some ([("a", "indented")], "")
  ∧ parsed ["a:b"] {| headers := {[ "a:b" := "v" ]}; body := "" |}
    = Some ([("a", "b: v")], "")
  ∧ parseEvent (Event_WriteTo [""] {| headers := {[ "" := "v" ]};
                                      body := "" |})
    = Return ({| headers := ∅; body := "" |},
              Some (MalformedHeaderLine ": v")).
Proof. split_and!; by vm_compute. Qed.

Lemma command_WriteTo_sorted_deterministic_witness :
  let c := {| name := "sendevent"; params := "SEND_INFO"; jobUUID := "";
              cmd_headers := ∅; cmd_body := "" |} in
  let kvs1 := [("profile", "external"); ("content-type", "text/plain")] in
  let kvs2 := [("content-type", "text/plain"); ("profile", "external")] in
  let range1 := (map_to_list (build_map kvs1)).*1 in
  let range2 := reverse (map_to_list (build_map kvs2)).*1 in
  command_WriteTo range1 (WithMessage c (build_map kvs1) "test")
  = command_WriteTo range2 (WithMessage c (build_map kvs2) "test")
  ∧ ∃ keys,
      keys ≡ₚ kvs1.*1 ∧ StronglySorted string_lt keys ∧
      command_WriteTo range1 (WithMessage c (build_map kvs1) "test")
      = command_head (WithMessage c (build_map kvs1) "test")
        +:+ header_block (build_map kvs1) keys
        +:+ command_tail (WithMessage c (build_map kvs1) "test").
Proof.
  apply command_WriteTo_sorted_deterministic.
  - discriminate.
  - apply (bool_decide_unpack _). vm_compute. exact I.
  - apply perm_swap.
  - unfold range_keys. reflexivity.
  - unfold range_keys. apply reverse_Permutation.
Defined.

Lemma command_WriteTo_examples :
  let c := {| name := "sendevent"; params := "SEND_INFO"; jobUUID := "";
              cmd_headers := ∅; cmd_body := "" |} in
  let h := build_map [("profile", "external"); ("content-type", "text/plain");
                      ("to-uri", "sip:1@2.3.4.5");
                      ("from-uri", "sip:1@1.2.3.4")] in
  let nl := String LF "" in
  command_WriteTo ["to-uri"; "profile"; "from-uri"; "content-type"]
                  (WithMessage c h "test")
  = "sendevent SEND_INFO" +:+ nl +:+ "content-type: text/plain" +:+ nl
    +:+ "from-uri: sip:1@1.2.3.4" +:+ nl +:+ "profile: external" +:+ nl
    +:+ "to-uri: sip:1@2.3.4.5" +:+ nl +:+ "content-length: 4" +:+ nl +:+ nl
    +:+ "test".
Proof. by vm_compute. Qed.
